(** * Scope blocks of the compiler (compiler/block.py)

    A shallow embedding of the block layer: the per-block allocator of
    temporaries and labels, the interned-string registry of the module
    block, the three kinds of block with their bind / delete / resolve
    operations, and the visitor that classifies the names of a body.

    Python objects that the code mutates in place are threaded explicitly:
    every operation takes the state it touches and returns the state it
    leaves, together with either its value or the exception it raised. *)

From Stdlib Require Import Ascii DecimalNat DecimalString.
From stdpp Require Import gmap strings list sets.

Local Open Scope string_scope.
Local Open Scope list_scope.

#[local] Set Warnings "-register-all,-clear-no-such-hyp".

(** ** Exceptions and outcomes *)

(** The exceptions the block layer can raise: [util.ParseError] (a diagnosed
    compile-time error carrying its message), the [KeyError] of a failed
    dict or set lookup, and the [AttributeError] of a missing attribute. *)
Inductive exn : Type :=
| ParseError (msg : string)
| KeyError (key : string)
| AttributeError (attr : string).

Inductive outcome (A : Type) : Type :=
| Returned (a : A)
| Raised (e : exn).
Arguments Returned {A} a.
Arguments Raised {A} e.

(** ** Allocator state of a block *)

(** [expr.GeneratedTempVar(block, name, type_)]: within one block a
    temporary is its generated name and its Go type. *)
Record TempVar : Type := mkTemp { tv_name : string; type_ : string }.

#[global] Instance TempVar_eq_dec : EqDecision TempVar.
Proof. solve_decision. Defined.

#[global] Instance TempVar_countable : Countable TempVar.
Proof.
  apply (inj_countable' (fun v => (tv_name v, type_ v))
                        (fun p => mkTemp p.1 p.2)).
  by intros [].
Defined.

(** [Loop(start_label, end_label)]. *)
Record Loop : Type := mkLoop { start_label : nat; end_label : nat }.

(** The fields [Block.__init__] sets up, shared by all block kinds. *)
Record Alloc : Type := mkAlloc {
  free_temps : gset TempVar;
  used_temps : gset TempVar;
  temp_index : nat;
  label_count : nat;
  checkpoints : gset nat;
  loop_stack : list Loop
}.

Definition Alloc_init : Alloc :=
  {| free_temps := ∅; used_temps := ∅; temp_index := 0;
     label_count := 0; checkpoints := ∅; loop_stack := [] |}.

(** *** Labels *)

(** [Block.genlabel]. *)
Definition genlabel (is_checkpoint : bool) (a : Alloc) : nat * Alloc :=
  let n := S (label_count a) in
  (n, {| free_temps := free_temps a; used_temps := used_temps a;
         temp_index := temp_index a; label_count := n;
         checkpoints := if is_checkpoint then {[ n ]} ∪ checkpoints a
                        else checkpoints a;
         loop_stack := loop_stack a |}).

(** [Block.push_loop]: two labels, neither a checkpoint. *)
Definition push_loop (a : Alloc) : Loop * Alloc :=
  let '(s, a1) := genlabel false a in
  let '(e, a2) := genlabel false a1 in
  let loop := mkLoop s e in
  (loop, {| free_temps := free_temps a2; used_temps := used_temps a2;
            temp_index := temp_index a2; label_count := label_count a2;
            checkpoints := checkpoints a2;
            loop_stack := loop_stack a2 ++ [loop] |}).

(** [Block.pop_loop]: [list.pop] takes the last entry and raises
    [IndexError] on an empty list; [None] stands for the raise. *)
Definition pop_loop (a : Alloc) : option Alloc :=
  match loop_stack a with
  | [] => None
  | _ :: _ =>
      Some {| free_temps := free_temps a; used_temps := used_temps a;
              temp_index := temp_index a; label_count := label_count a;
              checkpoints := checkpoints a;
              loop_stack := removelast (loop_stack a) |}
  end.

(** [Block.top_loop]: [loop_stack[-1]], an [IndexError] on an empty list. *)
Definition top_loop (a : Alloc) : option Loop := last (loop_stack a).

(** A run of [genlabel] calls, one per flag, collecting what each returns. *)
Fixpoint genlabels (flags : list bool) (a : Alloc) : list nat * Alloc :=
  match flags with
  | [] => ([], a)
  | f :: fs =>
      let '(n, a1) := genlabel f a in
      let '(ns, a2) := genlabels fs a1 in
      (n :: ns, a2)
  end.

(** The ids a run returned for the calls that asked for a checkpoint. *)
Fixpoint flagged (flags : list bool) (ids : list nat) : list nat :=
  match flags, ids with
  | f :: fs, n :: ns => if f then n :: flagged fs ns else flagged fs ns
  | _, _ => []
  end.

(** *** Temporaries *)

(** ['{:03d}'.format(n)]: the decimal digits of [n], padded on the left with
    zeros to three digits. *)
Fixpoint pad0 (k : nat) (d : Decimal.uint) : Decimal.uint :=
  match k with
  | 0 => d
  | S k' => Decimal.D0 (pad0 k' d)
  end.

Definition format_03d (n : nat) : string :=
  let d := Nat.to_uint n in
  NilEmpty.string_of_uint (pad0 (3 - Decimal.nb_digits d) d).

Definition temp_name (n : nat) : string := "πTemp" +:+ format_03d n.

(** [sorted(temps, key=lambda k: k.name)]: a stable sort on the name, byte
    strings compared byte by byte. *)
Fixpoint insert_by_name (v : TempVar) (l : list TempVar) : list TempVar :=
  match l with
  | [] => [v]
  | u :: l' =>
      if String.leb (tv_name v) (tv_name u) then v :: u :: l'
      else u :: insert_by_name v l'
  end.

Definition sorted_by_name (l : list TempVar) : list TempVar :=
  foldr insert_by_name [] l.

Definition set_temps (free used : gset TempVar) (idx : nat) (a : Alloc) : Alloc :=
  {| free_temps := free; used_temps := used; temp_index := idx;
     label_count := label_count a; checkpoints := checkpoints a;
     loop_stack := loop_stack a |}.

(** [Block.alloc_temp]: the first free temporary of the wanted type in name
    order, or else a new one named after the incremented index. *)
Definition alloc_temp (ty : string) (a : Alloc) : TempVar * Alloc :=
  match List.find (fun v => bool_decide (type_ v = ty))
                  (sorted_by_name (elements (free_temps a))) with
  | Some v =>
      (v, set_temps (free_temps a ∖ {[ v ]}) ({[ v ]} ∪ used_temps a)
                    (temp_index a) a)
  | None =>
      let idx := S (temp_index a) in
      let v := mkTemp (temp_name idx) ty in
      (v, set_temps (free_temps a) ({[ v ]} ∪ used_temps a) idx a)
  end.

(** The default of [alloc_temp]'s [type_] argument. *)
Definition Object_type : string := "*πg.Object".

(** [Block.free_temp]: [set.remove] raises [KeyError] on an absent member,
    before anything is added to the free set. *)
Definition free_temp (v : TempVar) (a : Alloc) : outcome unit * Alloc :=
  if decide (v ∈ used_temps a) then
    (Returned (), set_temps ({[ v ]} ∪ free_temps a) (used_temps a ∖ {[ v ]})
                            (temp_index a) a)
  else (Raised (KeyError (tv_name v)), a).

(** The allocator states a block can reach from its creation by calls of
    its allocator methods that return: [alloc_temp], [free_temp],
    [genlabel], [push_loop] and [pop_loop]. *)
Inductive reachable : Alloc -> Prop :=
| reachable_init : reachable Alloc_init
| reachable_alloc ty a v a' :
    reachable a -> alloc_temp ty a = (v, a') -> reachable a'
| reachable_free v a a' :
    reachable a -> free_temp v a = (Returned (), a') -> reachable a'
| reachable_label f a n a' :
    reachable a -> genlabel f a = (n, a') -> reachable a'
| reachable_push a loop a' :
    reachable a -> push_loop a = (loop, a') -> reachable a'
| reachable_pop a a' :
    reachable a -> pop_loop a = Some a' -> reachable a'.

(** ** Interned strings *)

(** [_non_word_re = re.compile('[^A-Za-z0-9_]')] matches one byte outside
    the identifier alphabet. *)
Definition is_word_char (c : Ascii.ascii) : bool :=
  let n := Ascii.nat_of_ascii c in
  (((65 <=? n) && (n <=? 90)) || ((97 <=? n) && (n <=? 122))
   || ((48 <=? n) && (n <=? 57)) || (n =? 95))%nat.

Fixpoint non_word_search (s : string) : bool :=
  match s with
  | EmptyString => false
  | String c s' => negb (is_word_char c) || non_word_search s'
  end.

(** The identifier alphabet, letter by letter: what the class
    [A-Za-z0-9_] of the regular expression stands for. *)
Definition identifier_alphabet : string :=
  "ABCDEFGHIJKLMNOPQRSTUVWXYZabcdefghijklmnopqrstuvwxyz0123456789_".

(** ** Variables of a function block *)

Inductive var_type : Type := TYPE_LOCAL | TYPE_PARAM | TYPE_GLOBAL.

#[global] Instance var_type_eq_dec : EqDecision var_type.
Proof. solve_decision. Defined.

(** [Var]: the constructor's assertions tie [arg_index] to the type. *)
Record Var : Type := mkVar {
  var_name : string;
  type : var_type;
  arg_index : option nat
}.

Definition init_expr (v : Var) : option string :=
  match type v, arg_index v with
  | TYPE_LOCAL, _ => Some "πg.UnboundLocal"
  | TYPE_PARAM, Some i =>
      Some ("πArgs[" +:+ NilEmpty.string_of_uint (Nat.to_uint i) +:+ "]")
  | _, _ => None
  end.

(** The ordered dict of a block's variables: insertion order kept, a new
    key goes last. *)
Definition Vars : Type := list (string * Var).

Fixpoint vars_get (name : string) (vs : Vars) : option Var :=
  match vs with
  | [] => None
  | (k, v) :: vs' => if decide (k = name) then Some v else vars_get name vs'
  end.

Definition keys (vs : Vars) : list string := vs.*1.

(** [vars[name] = v]: replaces the value of a present key in place, appends
    an absent one. *)
Fixpoint vars_set (name : string) (v : Var) (vs : Vars) : Vars :=
  match vs with
  | [] => [(name, v)]
  | (k, u) :: vs' =>
      if decide (k = name) then (k, v) :: vs'
      else (k, u) :: vars_set name v vs'
  end.

(** ** Blocks *)

(** The instructions a block hands to the writer: [writer.write(text)],
    [writer.write_checked_call1(fmt, *args)] and
    [writer.write_checked_call2(result, fmt, *args)]. The writer formats
    them; a block only appends. *)
Inductive instr : Type :=
| Write (text : string)
| CheckedCall1 (fmt : string) (args : list string)
| CheckedCall2 (result : TempVar) (fmt : string) (args : list string).

Definition Writer : Type := list instr.

(** [str.format] for a template whose fields are all [{}]: each field
    takes the next argument; [None] is the [IndexError] of a field
    without one. *)
Fixpoint format_ (fmt : string) (args : list string) : option string :=
  match fmt with
  | EmptyString => Some EmptyString
  | String c rest =>
      match rest with
      | String c' rest' =>
          if Ascii.eqb c "{" && Ascii.eqb c' "}" then
            match args with
            | a :: args' => (fun s => a +:+ s) <$> format_ rest' args'
            | [] => None
            end
          else String c <$> format_ rest args
      | EmptyString => Some (String c EmptyString)
      end
  end.

(** Modelled from the spec: the writer is not part of this module. A
    checked call stands for the template a block hands to the writer with
    the arguments filled in by [str.format]. *)
Definition call_text (i : instr) : option string :=
  match i with
  | Write text => Some text
  | CheckedCall1 fmt args | CheckedCall2 _ fmt args => format_ fmt args
  end.

(** The operands of a call [f(a, b, ...)], left to right. *)
Fixpoint operands_from (s : string) (cur : string) : list string :=
  match s with
  | EmptyString => [cur]
  | String c rest =>
      if Ascii.eqb c ")" then [cur]
      else if Ascii.eqb c "," then
        match rest with
        | String _ rest' => cur :: operands_from rest' EmptyString
        | EmptyString => [cur]
        end
      else operands_from rest (cur +:+ String c EmptyString)
  end.

Fixpoint call_operands (s : string) : list string :=
  match s with
  | EmptyString => []
  | String c rest =>
      if Ascii.eqb c "(" then operands_from rest EmptyString
      else call_operands rest
  end.

(** The namespaces a lookup call is handed, in the order of its operands:
    what stands between the frame, its first operand, and the interned
    name, its last one. *)
Definition lookup_sources (operands : list string) : list string :=
  removelast (tail operands).

(** The order that the specification gives to the combined lookup of a
    class: the captured local, the namespace of the class, the namespace of
    the module. *)
Definition spec_lookup_order (local : string) : list string :=
  [local; "πClass"; "πGlobals"].

(** What [resolve_name] returns: a temporary or a local variable. *)
Inductive GeneratedExpr : Type :=
| GeneratedTempVar (v : TempVar)
| GeneratedLocalVar (name : string).

(** A block with the chain of its parents up to the module block, which
    owns the interned strings of the whole unit. *)
Inductive Block : Type :=
| ModuleBlock (a : Alloc) (_strings : gset string)
| ClassBlock (a : Alloc) (parent_block : Block) (name : string)
             (global_vars : gset string)
| FunctionBlock (a : Alloc) (parent_block : Block) (name : string)
                (vars : Vars) (is_generator : bool).

Definition alloc_of (b : Block) : Alloc :=
  match b with
  | ModuleBlock a _ | ClassBlock a _ _ _ | FunctionBlock a _ _ _ _ => a
  end.

Definition with_alloc (a : Alloc) (b : Block) : Block :=
  match b with
  | ModuleBlock _ s => ModuleBlock a s
  | ClassBlock _ p n g => ClassBlock a p n g
  | FunctionBlock _ p n vs gen => FunctionBlock a p n vs gen
  end.

(** [self._module_block]: the root of the parent chain. *)
Fixpoint _module_block (b : Block) : Block :=
  match b with
  | ModuleBlock _ _ => b
  | ClassBlock _ p _ _ | FunctionBlock _ p _ _ _ => _module_block p
  end.

(** The chain of [b] once its module block has become [m]: the module block
    is one object, shared by every block below it. *)
Fixpoint with_module_block (m : Block) (b : Block) : Block :=
  match b with
  | ModuleBlock _ _ => m
  | ClassBlock a p n g => ClassBlock a (with_module_block m p) n g
  | FunctionBlock a p n vs gen =>
      FunctionBlock a (with_module_block m p) n vs gen
  end.

(** The [strings] property: the module block's set. *)
Definition strings (b : Block) : gset string :=
  match _module_block b with
  | ModuleBlock _ s => s
  | _ => ∅
  end.

Definition with_strings (s : gset string) (b : Block) : Block :=
  match _module_block b with
  | ModuleBlock a _ => with_module_block (ModuleBlock a s) b
  | _ => b
  end.

Section Blocks.

(** [util.go_str] and [util.adjust_local_name] live in another module of
    the compiler; the block layer only passes their results on. *)
Variable go_str : string -> string.
Variable adjust_local_name : string -> string.

(** [Block.intern] on the string set of the module block. *)
Definition intern_strings (s : string) (strs : gset string)
  : string * gset string :=
  if (64 <? String.length s)%nat || non_word_search s then
    ("πg.NewStr(" +:+ go_str s +:+ ")", strs)
  else ("ß" +:+ s, {[ s ]} ∪ strs).

(** [Block.intern]. *)
Definition intern (s : string) (b : Block) : string * Block :=
  let '(e, strs) := intern_strings s (strings b) in
  (e, with_strings strs b).

(** [Block._resolve_global]: the temporary comes from the block itself, the
    interned name from the module block. *)
Definition _resolve_global (b : Block) (w : Writer) (name : string)
  : TempVar * Block * Writer :=
  let '(result, a') := alloc_temp Object_type (alloc_of b) in
  let b1 := with_alloc a' b in
  let '(i, b2) := intern name b1 in
  (result, b2,
   w ++ [CheckedCall2 result "πg.ResolveGlobal(πF, πGlobals, {})" [i]]).

(** *** ModuleBlock *)

Definition ModuleBlock_bind_var (m : Block) (w : Writer) (name value : string)
  : outcome unit * Block * Writer :=
  let '(i, m') := intern name m in
  (Returned (), m',
   w ++ [CheckedCall1 "πGlobals.SetItem(πF, {}.ToObject(), {})" [i; value]]).

Definition ModuleBlock_del_var (m : Block) (w : Writer) (name : string)
  : outcome unit * Block * Writer :=
  let '(i, m') := intern name m in
  (Returned (), m', w ++ [CheckedCall1 "πg.DelVar(πF, πGlobals, {})" [i]]).

Definition ModuleBlock_resolve_name (m : Block) (w : Writer) (name : string)
  : outcome GeneratedExpr * Block * Writer :=
  let '(result, m', w') := _resolve_global m w name in
  (Returned (GeneratedTempVar result), m', w').

(** A call of a method of [self._module_block] from block [b]. *)
Definition via_module_block {A : Type}
    (f : Block -> Writer -> outcome A * Block * Writer)
    (b : Block) (w : Writer) : outcome A * Block * Writer :=
  let '(r, m', w') := f (_module_block b) w in
  (r, with_module_block m' b, w').

(** *** ClassBlock *)

Definition ClassBlock_bind_var (self : Block) (global_vars : gset string)
    (w : Writer) (name value : string) : outcome unit * Block * Writer :=
  if decide (name ∈ global_vars) then
    via_module_block (fun m w => ModuleBlock_bind_var m w name value) self w
  else
    let '(i, self') := intern name self in
    (Returned (), self',
     w ++ [CheckedCall1 "πClass.SetItem(πF, {}.ToObject(), {})" [i; value]]).

Definition ClassBlock_del_var (self : Block) (global_vars : gset string)
    (w : Writer) (name : string) : outcome unit * Block * Writer :=
  if decide (name ∈ global_vars) then
    via_module_block (fun m w => ModuleBlock_del_var m w name) self w
  else
    let '(i, self') := intern name self in
    (Returned (), self', w ++ [CheckedCall1 "πg.DelVar(πF, πClass, {})" [i]]).

(** The [while] loop of [ClassBlock.resolve_name], from [block] outward:
    the value [local] has when the loop ends. *)
Fixpoint class_local (name : string) (block : Block) : string :=
  match block with
  | ModuleBlock _ _ => "nil"
  | FunctionBlock _ p _ vs _ =>
      match vars_get name vs with
      | Some var =>
          if decide (type var = TYPE_GLOBAL) then "nil"
          else adjust_local_name name
      | None => class_local name p
      end
  | ClassBlock _ p _ _ => class_local name p
  end.

Definition ClassBlock_resolve_name (self : Block) (parent_block : Block)
    (global_vars : gset string) (w : Writer) (name : string)
  : outcome GeneratedExpr * Block * Writer :=
  let local :=
    if decide (name ∈ global_vars) then "nil"
    else class_local name parent_block in
  let '(result, a') := alloc_temp Object_type (alloc_of self) in
  let self1 := with_alloc a' self in
  let '(i, self2) := intern name self1 in
  (Returned (GeneratedTempVar result), self2,
   w ++ [CheckedCall2 result "πg.ResolveClass(πF, πClass, {}, πGlobals, {})"
                      [local; i]]).

(** *** FunctionBlock *)

Definition FunctionBlock_bind_var (self : Block) (vars : Vars)
    (w : Writer) (name value : string) : outcome unit * Block * Writer :=
  match vars_get name vars with
  | None => (Raised (KeyError name), self, w)
  | Some var =>
      if decide (type var = TYPE_GLOBAL) then
        via_module_block (fun m w => ModuleBlock_bind_var m w name value) self w
      else
        (Returned (), self,
         w ++ [Write (adjust_local_name name +:+ " = " +:+ value)])
  end.

Definition FunctionBlock_del_var (self : Block) (vars : Vars)
    (w : Writer) (name : string) : outcome unit * Block * Writer :=
  match vars_get name vars with
  | None =>
      (Raised (ParseError ("cannot delete nonexistent local: " +:+ name)),
       self, w)
  | Some var =>
      if decide (type var = TYPE_GLOBAL) then
        via_module_block (fun m w => ModuleBlock_del_var m w name) self w
      else
        let adjusted_name := adjust_local_name name in
        (Returned (), self,
         w ++ [CheckedCall1 "πg.CheckLocal(πF, {}, {})"
                            [adjusted_name; go_str name];
               Write (adjusted_name +:+ " = πg.UnboundLocal")])
  end.

(** The [while] loop of [FunctionBlock.resolve_name], from [block] outward:
    the first function block that has the name, with its variable. *)
Fixpoint function_lookup (name : string) (block : Block) : option Var :=
  match block with
  | ModuleBlock _ _ => None
  | FunctionBlock _ p _ vs _ =>
      match vars_get name vs with
      | Some var => Some var
      | None => function_lookup name p
      end
  | ClassBlock _ p _ _ => function_lookup name p
  end.

Definition FunctionBlock_resolve_name (self : Block) (w : Writer)
    (name : string) : outcome GeneratedExpr * Block * Writer :=
  match function_lookup name self with
  | Some var =>
      if decide (type var = TYPE_GLOBAL) then
        let '(result, self', w') := _resolve_global self w name in
        (Returned (GeneratedTempVar result), self', w')
      else
        (Returned (GeneratedLocalVar name), self,
         w ++ [CheckedCall1 "πg.CheckLocal(πF, {}, {})"
                            [adjust_local_name name; go_str name]])
  | None =>
      let '(result, self', w') := _resolve_global self w name in
      (Returned (GeneratedTempVar result), self', w')
  end.

(** *** The three operations, by kind of block *)

Definition bind_var (b : Block) (w : Writer) (name value : string)
  : outcome unit * Block * Writer :=
  match b with
  | ModuleBlock _ _ => ModuleBlock_bind_var b w name value
  | ClassBlock _ _ _ g => ClassBlock_bind_var b g w name value
  | FunctionBlock _ _ _ vs _ => FunctionBlock_bind_var b vs w name value
  end.

Definition del_var (b : Block) (w : Writer) (name : string)
  : outcome unit * Block * Writer :=
  match b with
  | ModuleBlock _ _ => ModuleBlock_del_var b w name
  | ClassBlock _ _ _ g => ClassBlock_del_var b g w name
  | FunctionBlock _ _ _ vs _ => FunctionBlock_del_var b vs w name
  end.

Definition resolve_name (b : Block) (w : Writer) (name : string)
  : outcome GeneratedExpr * Block * Writer :=
  match b with
  | ModuleBlock _ _ => ModuleBlock_resolve_name b w name
  | ClassBlock _ p _ g => ClassBlock_resolve_name b p g w name
  | FunctionBlock _ _ _ _ _ => FunctionBlock_resolve_name b w name
  end.

End Blocks.

(** ** The walk of a class block, said by position *)

(** A block and its parents, nearest first, up to the module block. *)
Fixpoint ancestors (b : Block) : list Block :=
  b :: match b with
       | ModuleBlock _ _ => []
       | ClassBlock _ p _ _ | FunctionBlock _ p _ _ _ => ancestors p
       end.

(** The entry a block has for a name: only a function block has any. *)
Definition function_entry (name : string) (b : Block) : option Var :=
  match b with
  | FunctionBlock _ _ _ vs _ => vars_get name vs
  | _ => None
  end.

(** The entry of the nearest function block, from [b] outward, whose
    variables contain the name. *)
Definition nearest_function_entry (name : string) (b : Block) : option Var :=
  head (omap (function_entry name) (ancestors b)).

(** ** The syntax tree the visitor walks *)

(** [ast.alias]. *)
Record alias : Type := mkAlias { alias_name : string; asname : option string }.

(** The nodes of [ast] the visitor tells apart, with the fields it reads or
    descends into, in the order [generic_visit] goes through them. Every
    other node is [Other] with its child nodes in field order: the visitor
    has no method for it and only passes through. [FunctionDef] carries the
    fields of its [arguments] that [FunctionBlockVisitor.__init__] reads. *)
Inductive node : Type :=
| Assign (targets : list node) (value : node)
| AugAssign (target : node) (value : node)
| ClassDef (name : string) (body : list node)
| ExceptHandler (type_ : option node) (name : option node) (body : list node)
| For (target iter : node) (body orelse : list node)
| FunctionDef (name : string) (args : list node) (vararg kwarg : option string)
              (body : list node)
| Global (names : list string)
| Import (names : list alias)
| ImportFrom (names : list alias)
| With (context_expr : node) (optional_vars : option node) (body : list node)
| Yield (value : option node)
| Name (id : string)
| Tuple (elts : list node)
| List (elts : list node)
| Other (children : list node).

(** ** The visitor *)

(** The two visitor classes: [visit_Yield] exists in the second only. *)
Inductive visitor_class : Type := BlockVisitor | FunctionBlockVisitor.

(** The attributes of a visitor object. *)
Record Visitor : Type := mkVisitor { vars : Vars; is_generator : bool }.

(** A method of the visitor: it may change the object and either returns
    or raises. *)
Definition V (A : Type) : Type := Visitor -> outcome A * Visitor.

Definition vret {A : Type} (a : A) : V A := fun st => (Returned a, st).

Definition vraise {A : Type} (e : exn) : V A := fun st => (Raised e, st).

Definition vbind {A B : Type} (m : V A) (k : A -> V B) : V B :=
  fun st =>
    match m st with
    | (Returned a, st') => k a st'
    | (Raised e, st') => (Raised e, st')
    end.

Notation "x <- c1 ;; c2" := (vbind c1 (fun x => c2))
  (at level 100, c1 at next level, right associativity).
Notation "c1 ;; c2" := (vbind c1 (fun _ => c2))
  (at level 100, right associativity).

(** A [for] loop over a list, stopped by the first exception. *)
Definition for_each {A : Type} (f : A -> V unit) : list A -> V unit :=
  fix go (l : list A) : V unit :=
    match l with
    | [] => vret ()
    | x :: l' => f x ;; go l'
    end.

Definition for_option {A : Type} (f : A -> V unit) (o : option A) : V unit :=
  match o with
  | Some x => f x
  | None => vret ()
  end.

Definition get_vars : V Vars := fun st => (Returned (vars st), st).

Definition set_var (name : string) (v : Var) : V unit :=
  fun st => (Returned (), mkVisitor (vars_set name v (vars st)) (is_generator st)).

Definition set_is_generator : V unit :=
  fun st => (Returned (), mkVisitor (vars st) true).

(** [BlockVisitor._register_global]. *)
Definition _register_global (name : string) : V unit :=
  vs <- get_vars ;;
  match vars_get name vs with
  | Some var =>
      match type var with
      | TYPE_PARAM =>
          vraise (ParseError ("name '" +:+ name +:+ "' is parameter and global"))
      | TYPE_LOCAL =>
          vraise (ParseError ("name '" +:+ name
                              +:+ "' is used prior to global declaration"))
      | TYPE_GLOBAL => vret ()
      end
  | None => set_var name (mkVar name TYPE_GLOBAL None)
  end.

(** [BlockVisitor._register_local]. *)
Definition _register_local (name : string) : V unit :=
  vs <- get_vars ;;
  match vars_get name vs with
  | Some _ => vret ()
  | None => set_var name (mkVar name TYPE_LOCAL None)
  end.

(** [BlockVisitor._assign_target]: a name, or the names of a tuple or list;
    any other target is left alone. *)
Fixpoint _assign_target (target : node) : V unit :=
  match target with
  | Name id => _register_local id
  | Tuple elts | List elts => for_each _assign_target elts
  | _ => vret ()
  end.

(** [s.split('.')[0]]. *)
Fixpoint before_dot (s : string) : string :=
  match s with
  | EmptyString => EmptyString
  | String c s' =>
      if Ascii.eqb c "."%char then EmptyString else String c (before_dot s')
  end.

(** [a or b] on an optional string: [None] and the empty string are false. *)
Definition str_or (a : option string) (b : string) : string :=
  match a with
  | Some (String c s) => String c s
  | _ => b
  end.

(** [n.id]: only a [Name] has the attribute. *)
Definition node_id (n : node) : V string :=
  match n with
  | Name id => vret id
  | _ => vraise (AttributeError "id")
  end.

(** [visit], with [generic_visit] where the class has no method for the
    node: the children in field order. *)
Fixpoint visit (cls : visitor_class) (n : node) : V unit :=
  match n with
  | Assign targets value =>
      for_each _assign_target targets ;; visit cls value
  | AugAssign target value =>
      _assign_target target ;; visit cls value
  | ClassDef name _ => _register_local name
  | ExceptHandler ty name body =>
      for_option (fun nm => id <- node_id nm ;; _register_local id) name ;;
      for_option (visit cls) ty ;;
      for_option (visit cls) name ;;
      for_each (visit cls) body
  | For target iter body orelse =>
      _assign_target target ;;
      visit cls target ;; visit cls iter ;;
      for_each (visit cls) body ;; for_each (visit cls) orelse
  | FunctionDef name _ _ _ _ => _register_local name
  | Global names => for_each _register_global names
  | Import names =>
      for_each (fun a => _register_local
                           (str_or (asname a) (before_dot (alias_name a))))
               names
  | ImportFrom names =>
      for_each (fun a => _register_local (str_or (asname a) (alias_name a)))
               names
  | With context_expr optional_vars body =>
      for_option _assign_target optional_vars ;;
      visit cls context_expr ;;
      for_option (visit cls) optional_vars ;;
      for_each (visit cls) body
  | Yield value =>
      match cls with
      | FunctionBlockVisitor => set_is_generator
      | BlockVisitor => for_option (visit cls) value
      end
  | Name _ => vret ()
  | Tuple elts | List elts => for_each (visit cls) elts
  | Other children => for_each (visit cls) children
  end.

(** The [for i, name in enumerate(args)] loop of
    [FunctionBlockVisitor.__init__], from index [i] on. *)
Fixpoint register_params (i : nat) (args : list string) : V unit :=
  match args with
  | [] => vret ()
  | name :: args' =>
      vs <- get_vars ;;
      match vars_get name vs with
      | Some _ =>
          vraise (ParseError ("duplicate argument '" +:+ name
                              +:+ "' in function definition"))
      | None =>
          set_var name (mkVar name TYPE_PARAM (Some i)) ;;
          register_params (S i) args'
      end
  end.

(** The list [args] the constructor builds: the ids of the positional
    parameters, then [vararg] and [kwarg] where they are set. *)
Fixpoint arg_ids (args : list node) : V (list string) :=
  match args with
  | [] => vret []
  | a :: args' =>
      id <- node_id a ;; ids <- arg_ids args' ;; vret (id :: ids)
  end.

Definition opt_name (o : option string) : list string :=
  match o with
  | Some (String c s) => [String c s]
  | _ => []
  end.

(** [BlockVisitor.__init__]. *)
Definition BlockVisitor_new : Visitor := mkVisitor [] false.

(** [FunctionBlockVisitor.__init__(node)], run on the object
    [BlockVisitor.__init__] leaves. *)
Definition FunctionBlockVisitor_init (n : node) : V unit :=
  match n with
  | FunctionDef _ args vararg kwarg _ =>
      ids <- arg_ids args ;;
      register_params 0 (ids ++ opt_name vararg ++ opt_name kwarg)
  | _ => vraise (AttributeError "args")
  end.

(** Modelled from the spec: the driver that calls the visitor is not part
    of this module; it builds the visitor from the function node and then
    visits the direct statements of the body in source order. *)
Definition classify_function (n : node) : outcome unit * Visitor :=
  match n with
  | FunctionDef _ _ _ _ body =>
      (FunctionBlockVisitor_init n ;; for_each (visit FunctionBlockVisitor) body)
        BlockVisitor_new
  | _ => FunctionBlockVisitor_init n BlockVisitor_new
  end.

(** ** The names of a body, read off the tree *)

(** The names an assignment target binds. *)
Fixpoint target_names (t : node) : list string :=
  match t with
  | Name id => [id]
  | Tuple elts | List elts => flat_map target_names elts
  | _ => []
  end.

Definition option_names {A : Type} (f : A -> list string) (o : option A)
  : list string :=
  match o with
  | Some x => f x
  | None => []
  end.

(** The names the statements of a body bind in the scope of that body:
    targets of assignments, of [for] and of [with], names of handlers,
    imported names, names of nested definitions and names declared global.
    The bodies of nested functions and classes are scopes of their own, and
    for a function so is what a [yield] encloses. *)
Fixpoint bound_names (cls : visitor_class) (n : node) : list string :=
  match n with
  | Assign targets value =>
      flat_map target_names targets ++ bound_names cls value
  | AugAssign target value => target_names target ++ bound_names cls value
  | ClassDef name _ => [name]
  | ExceptHandler ty name body =>
      option_names (fun nm => match nm with Name id => [id] | _ => [] end) name
      ++ option_names (bound_names cls) ty
      ++ option_names (bound_names cls) name
      ++ flat_map (bound_names cls) body
  | For target iter body orelse =>
      target_names target ++ bound_names cls target ++ bound_names cls iter
      ++ flat_map (bound_names cls) body ++ flat_map (bound_names cls) orelse
  | FunctionDef name _ _ _ _ => [name]
  | Global names => names
  | Import names =>
      map (fun a => str_or (asname a) (before_dot (alias_name a))) names
  | ImportFrom names => map (fun a => str_or (asname a) (alias_name a)) names
  | With context_expr optional_vars body =>
      option_names target_names optional_vars
      ++ bound_names cls context_expr
      ++ option_names (bound_names cls) optional_vars
      ++ flat_map (bound_names cls) body
  | Yield value =>
      match cls with
      | FunctionBlockVisitor => []
      | BlockVisitor => option_names (bound_names cls) value
      end
  | Name _ => []
  | Tuple elts | List elts => flat_map (bound_names cls) elts
  | Other children => flat_map (bound_names cls) children
  end.

(** Every name a body mentions outside nested function and class bodies,
    whether it is written or only read. *)
Fixpoint referenced_names (n : node) : list string :=
  match n with
  | Assign targets value =>
      flat_map referenced_names targets ++ referenced_names value
  | AugAssign target value => referenced_names target ++ referenced_names value
  | ClassDef name _ => [name]
  | ExceptHandler ty name body =>
      option_names referenced_names ty ++ option_names referenced_names name
      ++ flat_map referenced_names body
  | For target iter body orelse =>
      referenced_names target ++ referenced_names iter
      ++ flat_map referenced_names body ++ flat_map referenced_names orelse
  | FunctionDef name _ _ _ _ => [name]
  | Global names => names
  | Import names =>
      map (fun a => str_or (asname a) (before_dot (alias_name a))) names
  | ImportFrom names => map (fun a => str_or (asname a) (alias_name a)) names
  | With context_expr optional_vars body =>
      referenced_names context_expr
      ++ option_names referenced_names optional_vars
      ++ flat_map referenced_names body
  | Yield value => option_names referenced_names value
  | Name id => [id]
  | Tuple elts | List elts => flat_map referenced_names elts
  | Other children => flat_map referenced_names children
  end.

(** The parameter names of a function node, in declaration order. *)
Definition param_names (n : node) : list string :=
  match n with
  | FunctionDef _ args vararg kwarg _ =>
      flat_map (fun a => match a with Name id => [id] | _ => [] end) args
      ++ opt_name vararg ++ opt_name kwarg
  | _ => []
  end.

Definition body_of (n : node) : list node :=
  match n with
  | FunctionDef _ _ _ _ body => body
  | _ => []
  end.

(** The entries a list of parameter names gets, numbered from [i]. *)
Definition param_vars_from (i : nat) (names : list string) : Vars :=
  imap (fun k x => (x, mkVar x TYPE_PARAM (Some (i + k)))) names.

Definition param_vars (names : list string) : Vars := param_vars_from 0 names.

Definition duplicate_argument (name : string) : exn :=
  ParseError ("duplicate argument '" +:+ name +:+ "' in function definition").

(** ** Invariants and proof principles *)

(** The free and used temporaries of a block never overlap, and each is
    named after an index the block has already handed out. *)
Definition temps_ok (a : Alloc) : Prop :=
  free_temps a ## used_temps a
  /\ forall v, v ∈ free_temps a ∪ used_temps a ->
       exists i, 1 <= i <= temp_index a /\ tv_name v = temp_name i.

(** What a method of the visitor may do to the variables when the names it
    can register are [names]: it only appends, keeps the keys distinct,
    adds no other name, and adds each of them when it returns. *)
Definition visits {A : Type} (m : V A) (names : list string) : Prop :=
  forall st r st', m st = (r, st') ->
    (exists ext, vars st' = vars st ++ ext)
    /\ (NoDup (keys (vars st)) -> NoDup (keys (vars st')))
    /\ (forall x, x ∈ keys (vars st') -> x ∈ keys (vars st) \/ x ∈ names)
    /\ match r with
       | Returned _ => forall x, x ∈ names -> x ∈ keys (vars st')
       | Raised _ => True
       end.

Definition on_option (P : node -> Prop) (o : option node) : Prop :=
  match o with
  | Some n => P n
  | None => True
  end.

(** Induction on a node with the hypothesis for every child, also inside
    the lists and options of its fields. *)
Section node_induction.

Variable P : node -> Prop.
Hypothesis HAssign : forall targets value,
  Forall P targets -> P value -> P (Assign targets value).
Hypothesis HAugAssign : forall target value,
  P target -> P value -> P (AugAssign target value).
Hypothesis HClassDef : forall name body, P (ClassDef name body).
Hypothesis HExceptHandler : forall ty name body,
  on_option P ty -> on_option P name -> Forall P body ->
  P (ExceptHandler ty name body).
Hypothesis HFor : forall target iter body orelse,
  P target -> P iter -> Forall P body -> Forall P orelse ->
  P (For target iter body orelse).
Hypothesis HFunctionDef : forall name args vararg kwarg body,
  P (FunctionDef name args vararg kwarg body).
Hypothesis HGlobal : forall names, P (Global names).
Hypothesis HImport : forall names, P (Import names).
Hypothesis HImportFrom : forall names, P (ImportFrom names).
Hypothesis HWith : forall context_expr optional_vars body,
  P context_expr -> on_option P optional_vars -> Forall P body ->
  P (With context_expr optional_vars body).
Hypothesis HYield : forall value, on_option P value -> P (Yield value).
Hypothesis HName : forall id, P (Name id).
Hypothesis HTuple : forall elts, Forall P elts -> P (Tuple elts).
Hypothesis HList : forall elts, Forall P elts -> P (List elts).
Hypothesis HOther : forall children, Forall P children -> P (Other children).

Fixpoint node_nested_ind (n : node) : P n :=
  let all :=
    fix all (l : list node) : Forall P l :=
      match l with
      | [] => List.Forall_nil P
      | x :: l' => @List.Forall_cons _ P x l' (node_nested_ind x) (all l')
      end in
  let opt (o : option node) : on_option P o :=
    match o with
    | Some x => node_nested_ind x
    | None => I
    end in
  match n with
  | Assign targets value => HAssign _ _ (all targets) (node_nested_ind value)
  | AugAssign target value =>
      HAugAssign _ _ (node_nested_ind target) (node_nested_ind value)
  | ClassDef name body => HClassDef name body
  | ExceptHandler ty name body =>
      HExceptHandler _ _ _ (opt ty) (opt name) (all body)
  | For target iter body orelse =>
      HFor _ _ _ _ (node_nested_ind target) (node_nested_ind iter)
           (all body) (all orelse)
  | FunctionDef name args vararg kwarg body =>
      HFunctionDef name args vararg kwarg body
  | Global names => HGlobal names
  | Import names => HImport names
  | ImportFrom names => HImportFrom names
  | With context_expr optional_vars body =>
      HWith _ _ _ (node_nested_ind context_expr) (opt optional_vars) (all body)
  | Yield value => HYield _ (opt value)
  | Name id => HName id
  | Tuple elts => HTuple _ (all elts)
  | List elts => HList _ (all elts)
  | Other children => HOther _ (all children)
  end.

End node_induction.

(** ** Sample blocks and bodies *)

(** Stand-ins for the two functions of [util], to run the operations on
    samples: a prefix for local names and quotes around a string. *)
Definition sample_adjust (s : string) : string := "µ" +:+ s.

Definition sample_go_str (s : string) : string :=
  String "034"%char (s +:+ String "034"%char EmptyString).

(** A class [C] inside a function [f] that has a local [x], in a module. *)
Definition sample_module : Block := ModuleBlock Alloc_init ∅.

Definition sample_function : Block :=
  FunctionBlock Alloc_init sample_module "f"
                [("x", mkVar "x" TYPE_LOCAL None)] false.

(** The body of [C] declares [global x]. *)
Definition sample_class_global : Block :=
  ClassBlock Alloc_init sample_function "C" {[ "x" ]}.

(** An allocator that has opened a loop, handed out two temporaries and
    taken the first one back. *)
Definition sample_alloc : Alloc :=
  let '(_, a0) := push_loop Alloc_init in
  let '(v1, a1) := alloc_temp Object_type a0 in
  let '(_, a2) := alloc_temp "int" a1 in
  (free_temp v1 a2).2.

(** [def f(a): global total; count = 0; def inner(): pass]. *)
Definition sample_def : node :=
  FunctionDef "f" [Name "a"] None None
    [Global ["total"];
     Assign [Name "count"] (Other []);
     FunctionDef "inner" [] None None [Other []]].

(** [def g(): x = y]. *)
Definition sample_read : node :=
  FunctionDef "g" [] None None [Assign [Name "x"] (Name "y")].

(** ** Sequences of allocator calls *)

(** A call of one of the allocator methods of a block. *)
Inductive alloc_call : Type :=
| CallGenlabel (is_checkpoint : bool)
| CallAllocTemp (ty : string)
| CallFreeTemp (v : TempVar)
| CallPushLoop
| CallPopLoop.

(** The state a call leaves, [None] when it raises. *)
Definition call (c : alloc_call) (a : Alloc) : option Alloc :=
  match c with
  | CallGenlabel f => Some (genlabel f a).2
  | CallAllocTemp ty => Some (alloc_temp ty a).2
  | CallFreeTemp v =>
      match free_temp v a with
      | (Returned _, a') => Some a'
      | (Raised _, _) => None
      end
  | CallPushLoop => Some (push_loop a).2
  | CallPopLoop => pop_loop a
  end.

(** A sequence of calls, stopped by the first one that raises. *)
Fixpoint calls (cs : list alloc_call) (a : Alloc) : option Alloc :=
  match cs with
  | [] => Some a
  | c :: cs' =>
      match call c a with
      | Some a' => calls cs' a'
      | None => None
      end
  end.

(** The labels that the [genlabel] calls of one call return, in order and
    each with its [is_checkpoint] argument: one for a [genlabel], the start
    and the end label for a [push_loop], which calls [genlabel] twice. *)
Definition labels_of_call (c : alloc_call) (a : Alloc) : list (nat * bool) :=
  match c with
  | CallGenlabel f => [((genlabel f a).1, f)]
  | CallPushLoop =>
      [(start_label (push_loop a).1, false); (end_label (push_loop a).1, false)]
  | _ => []
  end.

(** The labels returned in the course of a sequence of calls. *)
Fixpoint labels_returned (cs : list alloc_call) (a : Alloc)
  : list (nat * bool) :=
  match cs with
  | [] => []
  | c :: cs' =>
      match call c a with
      | Some a' => labels_of_call c a ++ labels_returned cs' a'
      | None => []
      end
  end.

(** Every checkpoint is a label the block has generated, and so are the
    two labels of every loop on the stack, the end label right after the
    start label and an inner loop after the loops around it. *)
Definition labels_ok (a : Alloc) : Prop :=
  (forall n, n ∈ checkpoints a -> 1 <= n <= label_count a)
  /\ (forall l, l ∈ loop_stack a ->
        1 <= start_label l /\ end_label l = S (start_label l)
        /\ end_label l <= label_count a)
  /\ (forall i j li lj, i < j ->
        loop_stack a !! i = Some li -> loop_stack a !! j = Some lj ->
        end_label li < start_label lj).

(** ** Packages *)

(** [Package]. *)
Record Package : Type := mkPackage { pkg_name : string; alias_ : string }.

(** [name.replace('/', 'Γ')] on byte strings: the separator is two bytes
    in UTF-8. *)
Fixpoint replace_slash (s : string) : string :=
  match s with
  | EmptyString => EmptyString
  | String c s' =>
      if Ascii.eqb c "/"%char then "Γ" +:+ replace_slash s'
      else String c (replace_slash s')
  end.

(** [Package.__init__]: an alias that is [None] or empty is derived from
    the name. *)
Definition Package_new (name : string) (alias : option string) : Package :=
  match alias with
  | Some (String c s) => mkPackage name (String c s)
  | _ => mkPackage name ("π_" +:+ replace_slash name)
  end.

Section Imports.

(** The [_runtime] and [_libroot] attributes of the module block. *)
Variable runtime : string.
Variable libroot : string.

(** [Block.add_native_import] on the [imports] dict of the module block. *)
Definition add_native_import (name : string) (imports : gmap string Package)
  : Package * gmap string Package :=
  let '(name, alias) :=
    if decide (name = "grumpy") then (runtime, Some "πg") else (name, None) in
  match imports !! name with
  | Some package => (package, imports)
  | None =>
      let package := Package_new name alias in
      (package, <[name := package]> imports)
  end.

(** [Block.add_import]: ['/'.join([self.libroot, name])]. *)
Definition add_import (name : string) (imports : gmap string Package)
  : Package * gmap string Package :=
  add_native_import (libroot +:+ "/" +:+ name) imports.

End Imports.

(** Every package is stored under its own name. *)
Definition imports_ok (imports : gmap string Package) : Prop :=
  forall k p, imports !! k = Some p -> pkg_name p = k.

(** ** More on interned strings and on the visitor *)

(** The strings that [intern] stores: at most 64 bytes, all of them of the
    identifier alphabet. *)
Definition strings_ok (strs : gset string) : Prop :=
  forall s, s ∈ strs -> String.length s <= 64 /\ non_word_search s = false.

(** A block with its own allocator and the string set of its module block
    put aside: what no operation of a block may touch. *)
Definition frame (b : Block) : Block :=
  with_strings ∅ (with_alloc Alloc_init b).

(** Whether the walk of the function visitor meets a [yield]: the walk
    goes where [visit] goes, so not into assignment targets, nested
    functions and classes, nor below a [yield]. *)
Fixpoint yields (n : node) : bool :=
  match n with
  | Assign _ value => yields value
  | AugAssign _ value => yields value
  | ClassDef _ _ => false
  | ExceptHandler ty name body =>
      from_option yields false ty
      || (from_option yields false name || existsb yields body)
  | For target iter body orelse =>
      yields target
      || (yields iter || (existsb yields body || existsb yields orelse))
  | FunctionDef _ _ _ _ _ => false
  | Global _ => false
  | Import _ => false
  | ImportFrom _ => false
  | With context_expr optional_vars body =>
      yields context_expr
      || (from_option yields false optional_vars || existsb yields body)
  | Yield _ => true
  | Name _ => false
  | Tuple elts | List elts => existsb yields elts
  | Other children => existsb yields children
  end.

(** The names the [global] statements of a body declare, where the walk of
    the visitor reaches them. *)
Fixpoint global_names (cls : visitor_class) (n : node) : list string :=
  match n with
  | Assign _ value => global_names cls value
  | AugAssign _ value => global_names cls value
  | ClassDef _ _ => []
  | ExceptHandler ty name body =>
      option_names (global_names cls) ty
      ++ option_names (global_names cls) name
      ++ flat_map (global_names cls) body
  | For target iter body orelse =>
      global_names cls target ++ global_names cls iter
      ++ flat_map (global_names cls) body
      ++ flat_map (global_names cls) orelse
  | FunctionDef _ _ _ _ _ => []
  | Global names => names
  | Import _ => []
  | ImportFrom _ => []
  | With context_expr optional_vars body =>
      global_names cls context_expr
      ++ option_names (global_names cls) optional_vars
      ++ flat_map (global_names cls) body
  | Yield value =>
      match cls with
      | FunctionBlockVisitor => []
      | BlockVisitor => option_names (global_names cls) value
      end
  | Name _ => []
  | Tuple elts | List elts => flat_map (global_names cls) elts
  | Other children => flat_map (global_names cls) children
  end.

(** What a method of the visitor may do to the variables when the names it
    can declare global are [names]: it only appends, every global entry it
    appends is for one of them, and each of them has a global entry when it
    returns. *)
Definition declares {A : Type} (m : V A) (names : list string) : Prop :=
  forall st r st', m st = (r, st') ->
    (exists ext, vars st' = vars st ++ ext
       /\ forall k v, (k, v) ∈ ext -> type v = TYPE_GLOBAL -> k ∈ names)
    /\ match r with
       | Returned _ =>
           forall x, x ∈ names ->
             exists v, vars_get x (vars st') = Some v /\ type v = TYPE_GLOBAL
       | Raised _ => True
       end.

(** What a method of the function visitor may do to the generator flag when
    [y] tells whether it meets a [yield]: it never clears the flag, sets it
    only if it meets one, and has set it when it returns after meeting one. *)
Definition tracks {A : Type} (m : V A) (y : bool) : Prop :=
  forall st r st', m st = (r, st') ->
    (is_generator st = true -> is_generator st' = true)
    /\ (is_generator st' = true -> is_generator st = true \/ y = true)
    /\ match r with
       | Returned _ => y = true -> is_generator st' = true
       | Raised _ => True
       end.

(** A method keeps a property of the visitor object, whatever its
    outcome. *)
Definition keeps {A : Type} (I : Visitor -> Prop) (m : V A) : Prop :=
  forall st r st', m st = (r, st') -> I st -> I st'.

(** The assertions of [Var.__init__] on an entry of the variables, and
    the name of the variable being its key. *)
Definition entry_ok (e : string * Var) : Prop :=
  var_name e.2 = e.1
  /\ (type e.2 = TYPE_PARAM <-> is_Some (arg_index e.2)).

(** A list of temporaries in the order of their names. *)
Fixpoint name_sorted (l : list TempVar) : Prop :=
  match l with
  | [] => True
  | v :: l' =>
      (forall u, In u l' -> String.leb (tv_name v) (tv_name u) = true)
      /\ name_sorted l'
  end.

(** Some calls on a new block, and the state they leave. *)
Definition sample_calls : list alloc_call :=
  [CallPushLoop; CallGenlabel true; CallAllocTemp Object_type;
   CallAllocTemp "int"; CallPushLoop; CallPopLoop;
   CallFreeTemp (mkTemp "πTemp001" Object_type)].

Definition sample_state : Alloc :=
  default Alloc_init (calls sample_calls Alloc_init).

(** What an operation of block [b] that started with writer [w] may have
    done when it ends with block [b'] and writer [w']: the chain of blocks
    is as it was but for the allocator of [b] itself and the strings of the
    module block, no interned string is lost, and the writer has only been
    appended to. *)
Definition steps_from (b : Block) (w : Writer) (b' : Block) (w' : Writer)
  : Prop :=
  frame b' = frame b /\ strings b ⊆ strings b' /\ w `prefix_of` w'.

(** The block and the writer an operation on [name] leaves: the block it
    started with, with [name] interned or not and a temporary taken or not,
    and the writer it started with and something after it. *)
Definition shaped (go_str : string -> string) (b : Block) (w : Writer)
    (name : string) (b' : Block) (w' : Writer) : Prop :=
  exists a' strs' new,
    b' = with_strings strs' (with_alloc a' b)
    /\ (strs' = strings b \/ strs' = (intern_strings go_str name (strings b)).2)
    /\ (a' = alloc_of b \/ a' = (alloc_temp Object_type (alloc_of b)).2)
    /\ w' = w ++ new.

(** * Properties *)

(** ** Labels *)

Lemma genlabels_spec flags : forall a ids a',
  genlabels flags a = (ids, a') ->
  ids = seq (S (label_count a)) (length flags)
  /\ label_count a' = label_count a + length flags
  /\ checkpoints a' = list_to_set (flagged flags ids) ∪ checkpoints a.
Proof.
  induction flags as [|f fs IH]; intros a ids a' H; simpl in H.
  - inversion H; subst. simpl. split; [done|]. split; [lia|]. set_solver.
  - destruct (genlabels fs _) as [ns a2] eqn:E.
    inversion H; subst.
    apply IH in E as (-> & Hc & Hk). simpl in *.
    split; [done|]. split; [lia|].
    rewrite Hk. destruct f; simpl; set_solver.
Qed.

Lemma seq_increasing s n i j x y :
  i < j -> seq s n !! i = Some x -> seq s n !! j = Some y -> x < y.
Proof.
  intros Hij Hi Hj.
  apply lookup_seq in Hi as [-> _]. apply lookup_seq in Hj as [-> _]. lia.
Qed.

Lemma alloc_temp_labels ty a :
  label_count (alloc_temp ty a).2 = label_count a
  /\ checkpoints (alloc_temp ty a).2 = checkpoints a.
Proof. unfold alloc_temp. by destruct (List.find _ _). Qed.

Lemma flagged_app fs1 : forall ns1 fs2 ns2,
  length fs1 = length ns1 ->
  flagged (fs1 ++ fs2) (ns1 ++ ns2) = flagged fs1 ns1 ++ flagged fs2 ns2.
Proof.
  induction fs1 as [|f fs1 IH]; intros [|n ns1] fs2 ns2 H; try done.
  cbn [app flagged length] in *. rewrite IH by lia. by destruct f.
Qed.

Lemma call_labels c a a1 :
  call c a = Some a1 ->
  exists k, label_count a1 = k + label_count a
    /\ (labels_of_call c a).*1 = seq (S (label_count a)) k
    /\ checkpoints a1
       = list_to_set (flagged (labels_of_call c a).*2 (labels_of_call c a).*1)
         ∪ checkpoints a.
Proof.
  intros E. destruct c; cbn [call] in E.
  - inversion E; subst. exists 1. split; [done|]. split; [done|].
    unfold labels_of_call, genlabel. cbn [fst snd fmap list_fmap checkpoints flagged].
    destruct is_checkpoint; cbn [list_to_set].
    + by rewrite union_empty_r_L.
    + by rewrite union_empty_l_L.
  - inversion E; subst. destruct (alloc_temp_labels ty a) as [-> ->].
    exists 0. split; [done|]. split; [done|].
    cbn [labels_of_call fmap list_fmap flagged list_to_set].
    by rewrite union_empty_l_L.
  - unfold free_temp in E. destruct (decide _); inversion E; subst.
    exists 0. split; [done|]. split; [done|].
    cbn [labels_of_call fmap list_fmap flagged list_to_set checkpoints].
    by rewrite union_empty_l_L.
  - inversion E; subst. exists 2. split; [done|]. split; [done|].
    unfold labels_of_call, push_loop, genlabel.
    cbn [fst snd fmap list_fmap checkpoints flagged list_to_set
         start_label end_label].
    by rewrite union_empty_l_L.
  - unfold pop_loop in E. destruct (loop_stack a); inversion E; subst.
    exists 0. split; [done|]. split; [done|].
    cbn [labels_of_call fmap list_fmap flagged list_to_set checkpoints].
    by rewrite union_empty_l_L.
Qed.

Lemma labels_returned_spec cs : forall a a',
  calls cs a = Some a' ->
  label_count a <= label_count a'
  /\ (labels_returned cs a).*1
     = seq (S (label_count a)) (label_count a' - label_count a)
  /\ checkpoints a'
     = list_to_set (flagged (labels_returned cs a).*2 (labels_returned cs a).*1)
       ∪ checkpoints a.
Proof.
  induction cs as [|c cs IH]; intros a a' H; cbn [calls labels_returned] in *.
  - inversion H; subst. rewrite Nat.sub_diag.
    cbn [fmap list_fmap flagged list_to_set seq].
    split; [done|]. split; [done|]. by rewrite union_empty_l_L.
  - destruct (call c a) as [a1|] eqn:E; [|done].
    destruct (IH _ _ H) as (Hle & Hids & Hck).
    destruct (call_labels _ _ _ E) as (k & Hk & Hids1 & Hck1).
    split; [lia|]. rewrite !fmap_app. split.
    + rewrite Hids, Hids1, Hk.
      replace (label_count a' - label_count a)
        with (k + (label_count a' - (k + label_count a))) by lia.
      rewrite seq_app. f_equal. f_equal. lia.
    + rewrite flagged_app by (by rewrite !length_fmap).
      rewrite list_to_set_app_L, Hck, Hck1. set_solver.
Qed.

(** C7: whatever calls a block has served since its creation, the ids that
    its [genlabel] calls have returned, those that [push_loop] makes
    included, are 1, 2, 3, ... in this order, so strictly increasing from 1,
    and the checkpoint set of the block holds exactly the ids returned by
    the calls made with [is_checkpoint] true. *)
Theorem genlabel_ids_increase_from_1 (cs : list alloc_call) (a : Alloc) :
  calls cs Alloc_init = Some a ->
  let ids := (labels_returned cs Alloc_init).*1 in
  let flags := (labels_returned cs Alloc_init).*2 in
  ids = seq 1 (label_count a)
  /\ (forall i j x y, i < j -> ids !! i = Some x -> ids !! j = Some y -> x < y)
  /\ checkpoints a = list_to_set (flagged flags ids).
Proof.
  intros H. cbn zeta.
  destruct (labels_returned_spec _ _ _ H) as (_ & Hids & Hck).
  simpl in Hids. rewrite Nat.sub_0_r in Hids.
  split; [done|]. split.
  - rewrite Hids. intros i j x y. apply seq_increasing.
  - rewrite Hck. apply union_empty_r_L.
Qed.

Lemma genlabel_ids_increase_from_1_witness :
  calls sample_calls Alloc_init = Some sample_state
  /\ (labels_returned sample_calls Alloc_init).*1 = seq 1 5
  /\ (forall i j x y, i < j ->
        (labels_returned sample_calls Alloc_init).*1 !! i = Some x ->
        (labels_returned sample_calls Alloc_init).*1 !! j = Some y -> x < y)
  /\ checkpoints sample_state
     = list_to_set (flagged (labels_returned sample_calls Alloc_init).*2
                            (labels_returned sample_calls Alloc_init).*1).
Proof.
  assert (calls sample_calls Alloc_init = Some sample_state) as H
    by (vm_compute; reflexivity).
  split; [exact H|].
  exact (genlabel_ids_increase_from_1 sample_calls sample_state H).
Defined.

(** ** Temporaries *)

Lemma of_uint_pad0 k d : Nat.of_uint (pad0 k d) = Nat.of_uint d.
Proof. induction k as [|k IH]; [done|]. simpl. exact IH. Qed.

Lemma string_of_uint_inj d1 d2 :
  NilEmpty.string_of_uint d1 = NilEmpty.string_of_uint d2 -> d1 = d2.
Proof.
  intros H. apply (f_equal NilEmpty.uint_of_string) in H.
  rewrite !NilEmpty.usu in H. congruence.
Qed.

Lemma format_03d_inj i j : format_03d i = format_03d j -> i = j.
Proof.
  unfold format_03d. intros H. apply string_of_uint_inj in H.
  apply (f_equal Nat.of_uint) in H.
  by rewrite !of_uint_pad0, !Unsigned.of_to in H.
Qed.

Lemma temp_name_inj i j : temp_name i = temp_name j -> i = j.
Proof.
  unfold temp_name. intros H. apply format_03d_inj.
  simpl in H. by inversion H.
Qed.

Lemma In_insert_by_name x v l :
  In x (insert_by_name v l) <-> x = v \/ In x l.
Proof.
  induction l as [|u l IH]; simpl.
  - split; intros [H|H]; auto.
  - destruct (String.leb _ _); simpl; [split; intros [H|H]; auto|].
    rewrite IH. tauto.
Qed.

Lemma In_sorted_by_name x l : In x (sorted_by_name l) <-> In x l.
Proof.
  induction l as [|u l IH]; simpl; [done|].
  rewrite In_insert_by_name, IH. split; intros [H|H]; auto.
Qed.

Lemma alloc_temp_found ty a v :
  List.find (fun v => bool_decide (type_ v = ty))
            (sorted_by_name (elements (free_temps a))) = Some v ->
  v ∈ free_temps a /\ type_ v = ty.
Proof.
  intros H. apply find_some in H as [Hin Hty].
  apply In_sorted_by_name, list_elem_of_In, elem_of_elements in Hin.
  by apply bool_decide_eq_true in Hty.
Qed.

Lemma alloc_temp_none ty a :
  List.find (fun v => bool_decide (type_ v = ty))
            (sorted_by_name (elements (free_temps a))) = None ->
  forall v, v ∈ free_temps a -> type_ v <> ty.
Proof.
  intros H v Hv.
  apply elem_of_elements, list_elem_of_In, In_sorted_by_name in Hv.
  apply (find_none _ _ H) in Hv. by apply bool_decide_eq_false in Hv.
Qed.

Lemma temps_ok_alloc ty a v a' :
  temps_ok a -> alloc_temp ty a = (v, a') -> temps_ok a'.
Proof.
  intros [Hd Hn] H. unfold alloc_temp in H.
  destruct (List.find _ _) as [u|] eqn:E; inversion H; subst.
  - apply alloc_temp_found in E as [Hin _]. split; simpl.
    + set_solver.
    + intros x Hx. apply Hn. set_solver.
  - split; simpl.
    + intros x Hx Hu. apply elem_of_union in Hu as [Hu|Hu]; [|set_solver].
      apply elem_of_singleton in Hu as ->.
      destruct (Hn (mkTemp (temp_name (S (temp_index a))) ty))
        as (i & Hi & Hnm); [set_solver|].
      simpl in Hnm. apply temp_name_inj in Hnm. lia.
    + intros x Hx.
      destruct (decide (x = mkTemp (temp_name (S (temp_index a))) ty))
        as [->|Hne].
      * exists (S (temp_index a)). split; [lia|done].
      * destruct (Hn x) as (i & Hi & Hnm); [set_solver|].
        exists i. split; [lia|done].
Qed.

Lemma temps_ok_free v a a' :
  temps_ok a -> free_temp v a = (Returned (), a') -> temps_ok a'.
Proof.
  intros [Hd Hn] H. unfold free_temp in H.
  destruct (decide (v ∈ used_temps a)); inversion H; subst.
  split; simpl; [set_solver|].
  intros x Hx. apply Hn. set_solver.
Qed.

Lemma reachable_temps_ok a : reachable a -> temps_ok a.
Proof.
  induction 1 as [|ty a v a' _ IH H|v a a' _ IH H|f a n a' _ IH H
                  |a loop a' _ IH H|a a' _ IH H].
  - split; simpl; [set_solver|]. intros v Hv. set_solver.
  - eapply temps_ok_alloc; eauto.
  - eapply temps_ok_free; eauto.
  - unfold genlabel in H. inversion H; subst. exact IH.
  - unfold push_loop, genlabel in H. inversion H; subst. exact IH.
  - unfold pop_loop in H. destruct (loop_stack a); inversion H; subst.
    exact IH.
Qed.

(** Every state that a sequence of allocator calls leaves is one a block
    can reach. *)
Lemma calls_reachable cs : forall a a',
  reachable a -> calls cs a = Some a' -> reachable a'.
Proof.
  induction cs as [|c cs IH]; intros a a' Hr H; cbn [calls] in H.
  - by inversion H; subst.
  - destruct (call c a) as [a1|] eqn:E; [|done].
    apply (IH a1); [|done]. destruct c; cbn [call] in E.
    + injection E as <-.
      by apply (reachable_label is_checkpoint a (genlabel is_checkpoint a).1).
    + injection E as <-.
      apply (reachable_alloc ty a (alloc_temp ty a).1); [done|].
      apply surjective_pairing.
    + destruct (free_temp v a) as [[[]|e] a2] eqn:Ef; inversion E; subst.
      by eapply reachable_free.
    + injection E as <-.
      apply (reachable_push a (push_loop a).1); [done|].
      apply surjective_pairing.
    + by eapply reachable_pop.
Qed.

Lemma alloc_temp_not_used ty a v a' :
  temps_ok a -> alloc_temp ty a = (v, a') -> v ∉ used_temps a.
Proof.
  intros [Hd Hn] H. unfold alloc_temp in H.
  destruct (List.find _ _) as [u|] eqn:E; inversion H; subst.
  - apply alloc_temp_found in E as [Hin _]. set_solver.
  - intros Hu. destruct (Hn _ (elem_of_union_r _ _ _ Hu)) as (i & Hi & Hnm).
    simpl in Hnm. apply temp_name_inj in Hnm. lia.
Qed.

Lemma alloc_free_alloc ty a v a1 :
  alloc_temp ty a = (v, a1) ->
  exists a2, free_temp v a1 = (Returned (), a2) /\ (alloc_temp ty a2).1 = v.
Proof.
  intros H. unfold alloc_temp in H.
  destruct (List.find _ _) as [u|] eqn:E; inversion H; subst.
  - pose proof (alloc_temp_found _ _ _ E) as [Hin _].
    unfold free_temp. simpl.
    destruct (decide (v ∈ {[v]} ∪ used_temps a)) as [_|Hn]; [|set_solver].
    eexists. split; [done|].
    unfold alloc_temp. simpl.
    replace ({[v]} ∪ (free_temps a ∖ {[v]})) with (free_temps a).
    + by rewrite E.
    + apply set_eq. intros x. destruct (decide (x = v)); set_solver.
  - pose proof (alloc_temp_none _ _ E) as Hnone.
    set (v := mkTemp (temp_name (S (temp_index a))) ty).
    unfold free_temp. simpl.
    destruct (decide (v ∈ {[v]} ∪ used_temps a)) as [_|Hn]; [|set_solver].
    eexists. split; [done|].
    unfold alloc_temp. simpl.
    destruct (List.find _ (sorted_by_name (elements ({[v]} ∪ free_temps a))))
      as [u|] eqn:E2; simpl.
    + apply find_some in E2 as [Hin Hty].
      apply In_sorted_by_name, list_elem_of_In, elem_of_elements in Hin.
      apply bool_decide_eq_true in Hty.
      apply elem_of_union in Hin as [Hin|Hin].
      * by apply elem_of_singleton in Hin.
      * by apply Hnone in Hin.
    + exfalso.
      assert (In v (sorted_by_name (elements ({[v]} ∪ free_temps a)))) as Hin.
      { apply In_sorted_by_name, list_elem_of_In, elem_of_elements.
        set_solver. }
      apply (find_none _ _ E2) in Hin. by apply bool_decide_eq_false in Hin.
Qed.

(** C6: in every allocator state a block can reach, with loops open or
    not, [alloc_temp] returns a temporary that is not in the used set at
    the time of the call; and when the temporary it returned is freed and
    [alloc_temp] is called again with the same type, the second call
    returns a temporary of the same generated name. *)
Theorem alloc_temp_fresh_and_reused (a : Alloc) (ty : string) :
  reachable a ->
  let '(v, a1) := alloc_temp ty a in
  (v ∉ used_temps a)
  /\ exists a2, free_temp v a1 = (Returned (), a2)
       /\ tv_name (alloc_temp ty a2).1 = tv_name v.
Proof.
  intros Hr. destruct (alloc_temp ty a) as [v a1] eqn:E.
  split.
  - eapply alloc_temp_not_used; eauto using reachable_temps_ok.
  - destruct (alloc_free_alloc _ _ _ _ E) as (a2 & Hf & Hv).
    exists a2. split; [done|]. by rewrite Hv.
Qed.

Lemma sample_alloc_reachable : reachable sample_alloc.
Proof.
  unfold sample_alloc.
  destruct (push_loop Alloc_init) as [l0 a0] eqn:E0.
  destruct (alloc_temp Object_type a0) as [v1 a1] eqn:E1.
  destruct (alloc_temp "int" a1) as [v2 a2] eqn:E2.
  apply (reachable_free v1 a2).
  - eapply reachable_alloc; [|exact E2].
    eapply reachable_alloc; [|exact E1].
    eapply reachable_push; [apply reachable_init|exact E0].
  - vm_compute in E0. inversion E0; subst.
    vm_compute in E1. inversion E1; subst.
    vm_compute in E2. inversion E2; subst. reflexivity.
Defined.

Lemma alloc_temp_fresh_and_reused_witness :
  reachable sample_alloc
  /\ let '(v, a1) := alloc_temp Object_type sample_alloc in
     (v ∉ used_temps sample_alloc)
     /\ exists a2, free_temp v a1 = (Returned (), a2)
          /\ tv_name (alloc_temp Object_type a2).1 = tv_name v.
Proof.
  split; [exact sample_alloc_reachable|].
  exact (alloc_temp_fresh_and_reused sample_alloc Object_type
                                     sample_alloc_reachable).
Defined.

(** ** Interned strings *)

Lemma module_block_is_module b : exists a s, _module_block b = ModuleBlock a s.
Proof. induction b; simpl; eauto. Qed.

Lemma with_module_block_id b : with_module_block (_module_block b) b = b.
Proof. induction b; simpl; congruence. Qed.

Lemma module_block_with_module_block a s b :
  _module_block (with_module_block (ModuleBlock a s) b) = ModuleBlock a s.
Proof. induction b; simpl; auto. Qed.

Lemma with_strings_id b : with_strings (strings b) b = b.
Proof.
  unfold with_strings, strings.
  destruct (module_block_is_module b) as (a & s & E). rewrite E.
  rewrite <- E. apply with_module_block_id.
Qed.

Lemma strings_with_strings s b : strings (with_strings s b) = s.
Proof.
  unfold with_strings, strings.
  destruct (module_block_is_module b) as (a & s0 & E). rewrite E.
  by rewrite module_block_with_module_block.
Qed.

Lemma with_strings_twice s1 s2 b :
  with_strings s2 (with_strings s1 b) = with_strings s2 b.
Proof.
  unfold with_strings.
  destruct (module_block_is_module b) as (a & s0 & E). rewrite E.
  rewrite module_block_with_module_block.
  clear E. induction b; simpl; congruence.
Qed.

Lemma filter_eq_absent `{EqDecision A} (x : A) (l : list A) :
  x ∉ l -> filter (fun y => y = x) l = [].
Proof.
  induction l as [|y l IH]; intros Hx; [done|].
  apply not_elem_of_cons in Hx as [Hne Hx].
  rewrite filter_cons. destruct (decide (y = x)); [congruence | auto].
Qed.

Lemma count_once `{EqDecision A} (x : A) (l : list A) :
  NoDup l -> x ∈ l -> length (filter (fun y => y = x) l) = 1.
Proof.
  induction 1 as [|y l Hy Hl IH]; intros Hin.
  - by apply elem_of_nil in Hin.
  - rewrite filter_cons. destruct (decide (y = x)) as [->|Hne].
    + by rewrite filter_eq_absent.
    + apply IH. apply elem_of_cons in Hin as [->|]; done.
Qed.

(** The search of the regular expression finds a byte exactly when the
    string has one outside the identifier alphabet. *)
Lemma non_word_search_spec s :
  non_word_search s = true <->
  exists c, In c (String.list_ascii_of_string s) /\ is_word_char c = false.
Proof.
  induction s as [|c s IH]; simpl.
  - split; [done|]. by intros (c & [] & _).
  - rewrite orb_true_iff, IH, negb_true_iff. split.
    + intros [H|(c' & H1 & H2)]; eauto.
    + intros (c' & [->|H1] & H2); eauto.
Qed.

Example intern_long_name (b : Block) :
  let s := String.concat "" (replicate 100 "a") in
  intern sample_go_str s b = ("πg.NewStr(" +:+ sample_go_str s +:+ ")", b).
Proof. unfold intern, intern_strings. simpl. by rewrite with_strings_id. Qed.

Example intern_name_with_space (b : Block) :
  intern sample_go_str "a b" b = ("πg.NewStr(" +:+ sample_go_str "a b" +:+ ")", b).
Proof. unfold intern, intern_strings. simpl. by rewrite with_strings_id. Qed.

(** The test on a byte is membership in the identifier alphabet. *)
Lemma is_word_char_alphabet (c : Ascii.ascii) :
  is_word_char c
  = existsb (Ascii.eqb c) (String.list_ascii_of_string identifier_alphabet).
Proof.
  destruct c as [b0 b1 b2 b3 b4 b5 b6 b7].
  destruct b0, b1, b2, b3, b4, b5, b6, b7; vm_compute; reflexivity.
Qed.

Lemma is_word_char_elem_of (c : Ascii.ascii) :
  is_word_char c = true
  <-> c ∈ String.list_ascii_of_string identifier_alphabet.
Proof.
  rewrite is_word_char_alphabet, existsb_exists, list_elem_of_In. split.
  - intros (x & Hx & Hc). apply Ascii.eqb_eq in Hc. by subst.
  - intros H. exists c. split; [done|]. apply Ascii.eqb_refl.
Qed.

Lemma non_word_search_alphabet (s : string) :
  non_word_search s = true
  <-> Exists (fun c => c ∉ String.list_ascii_of_string identifier_alphabet)
             (String.list_ascii_of_string s).
Proof.
  induction s as [|c s IH]; cbn [non_word_search String.list_ascii_of_string].
  - split; [done|]. intros H. inversion H.
  - rewrite Exists_cons, orb_true_iff, IH, negb_true_iff.
    rewrite <- is_word_char_elem_of. destruct (is_word_char c); naive_solver.
Qed.

(** C9: for a string longer than 64 bytes or with a byte outside the
    identifier alphabet (the letters, the digits and the underscore),
    [intern] leaves the block and so the string set as they are and returns
    the expression that builds a new literal, on every call; for any other
    string a second call returns the same reference as the first and changes
    nothing more, and the string set, which is the old one with the string
    added, has the string exactly once. *)
Theorem intern_fresh_or_idempotent
    (go_str : string -> string) (s : string) (b : Block) :
  let alphabet := String.list_ascii_of_string identifier_alphabet in
  if decide (64 < String.length s
             \/ Exists (fun c => c ∉ alphabet) (String.list_ascii_of_string s))
  then
    intern go_str s b = ("πg.NewStr(" +:+ go_str s +:+ ")", b)
  else
    let '(e1, b1) := intern go_str s b in
    let '(e2, b2) := intern go_str s b1 in
    e1 = "ß" +:+ s /\ e2 = e1 /\ b2 = b1
    /\ strings b1 = {[ s ]} ∪ strings b
    /\ length (filter (fun x => x = s) (elements (strings b1))) = 1.
Proof.
  cbn zeta. unfold intern, intern_strings.
  assert (((64 <? String.length s)%nat || non_word_search s) = true
          <-> 64 < String.length s
              \/ Exists (fun c => c ∉ String.list_ascii_of_string
                                        identifier_alphabet)
                        (String.list_ascii_of_string s)) as Hc.
  { by rewrite orb_true_iff, Nat.ltb_lt, non_word_search_alphabet. }
  destruct (decide _) as [H|H].
  - apply Hc in H. rewrite H. by rewrite with_strings_id.
  - destruct ((64 <? String.length s)%nat || non_word_search s) eqn:E.
    { destruct H. by apply Hc. }
    rewrite !strings_with_strings, with_strings_twice.
    repeat split.
    + f_equal. set_solver.
    + apply count_once; [apply NoDup_elements|].
      apply elem_of_elements. set_solver.
Qed.

(** ** Blocks *)

Section BlockFacts.

Variable go_str : string -> string.
Variable adjust_local_name : string -> string.

(** Both walks stop at the same block: the nearest function block whose
    variables contain the name. *)
Lemma function_lookup_nearest name b :
  function_lookup name b = nearest_function_entry name b.
Proof.
  unfold nearest_function_entry.
  induction b as [a s|a p IH n g|a p IH n vs gen]; simpl; auto.
  destruct (vars_get name vs); simpl; auto.
Qed.

Lemma class_local_nearest name b :
  class_local adjust_local_name name b =
  match nearest_function_entry name b with
  | Some var =>
      if decide (type var = TYPE_GLOBAL) then "nil" else adjust_local_name name
  | None => "nil"
  end.
Proof.
  unfold nearest_function_entry.
  induction b as [a s|a p IH n g|a p IH n vs gen]; simpl; auto.
  destruct (vars_get name vs); simpl; auto.
Qed.


(** C1, as the code has it: a class block resolving a name that its body
    declares global takes the same temporary, interns the same name and
    leaves the same blocks as the lookup of a global from that block, and
    it passes no local, whatever the enclosing functions hold; but the call
    it writes is the class lookup with [nil] for the local, not the lookup
    of a global that the module block writes. *)
Theorem class_resolve_declared_global
    (a : Alloc) (p : Block) (n : string) (gv : gset string)
    (w : Writer) (name : string) :
  name ∈ gv ->
  let self := ClassBlock a p n gv in
  let '(r, b', w') := _resolve_global go_str self w name in
  exists i,
    w' = w ++ [CheckedCall2 r "πg.ResolveGlobal(πF, πGlobals, {})" [i]]
    /\ resolve_name go_str adjust_local_name self w name =
       (Returned (GeneratedTempVar r), b',
        w ++ [CheckedCall2 r "πg.ResolveClass(πF, πClass, {}, πGlobals, {})"
                           ["nil"; i]]).
Proof.
  intros Hg. simpl. unfold _resolve_global, ClassBlock_resolve_name. simpl.
  destruct (alloc_temp Object_type a) as [r a'].
  destruct (intern go_str name _) as [i self'].
  exists i. split; [done|].
  by destruct (decide (name ∈ gv)).
Qed.

(** C5: [del_var] of a function block raises the parse error, writing
    nothing, for a name its variables do not have; for a global name it is
    [del_var] of the module block; for any other name it writes the check
    that the local is bound and after it the assignment of the unbound
    value, in this order. *)
Theorem function_del_var_cases
    (a : Alloc) (p : Block) (n : string) (vs : Vars) (gen : bool)
    (w : Writer) (name : string) :
  let self := FunctionBlock a p n vs gen in
  match vars_get name vs with
  | None =>
      del_var go_str adjust_local_name self w name =
      (Raised (ParseError ("cannot delete nonexistent local: " +:+ name)),
       self, w)
  | Some var =>
      if decide (type var = TYPE_GLOBAL) then
        del_var go_str adjust_local_name self w name =
        let '(r, m', w') :=
          del_var go_str adjust_local_name (_module_block self) w name in
        (r, with_module_block m' self, w')
      else
        del_var go_str adjust_local_name self w name =
        (Returned (), self,
         w ++ [CheckedCall1 "πg.CheckLocal(πF, {}, {})"
                            [adjust_local_name name; go_str name]]
           ++ [Write (adjust_local_name name +:+ " = πg.UnboundLocal")])
  end.
Proof.
  simpl. unfold FunctionBlock_del_var.
  destruct (vars_get name vs) as [var|]; [|done].
  destruct (decide (type var = TYPE_GLOBAL)); [|done].
  unfold via_module_block. simpl.
  destruct (module_block_is_module p) as (am & sm & ->). done.
Qed.

(** C10: for a name that the variables of a function block do not have,
    [bind_var] raises the key error of the failed lookup and leaves the
    block and the writer as they were, where [del_var] raises the parse
    error. *)
Theorem function_bind_var_absent
    (a : Alloc) (p : Block) (n : string) (vs : Vars) (gen : bool)
    (w : Writer) (name value : string) :
  vars_get name vs = None ->
  let self := FunctionBlock a p n vs gen in
  bind_var go_str adjust_local_name self w name value
    = (Raised (KeyError name), self, w)
  /\ del_var go_str adjust_local_name self w name
    = (Raised (ParseError ("cannot delete nonexistent local: " +:+ name)),
       self, w).
Proof.
  intros H. simpl. unfold FunctionBlock_bind_var, FunctionBlock_del_var.
  by rewrite H.
Qed.

End BlockFacts.



Lemma class_resolve_declared_global_witness :
  "x" ∈ ({[ "x" ]} : gset string)
  /\ let '(r, b', w') :=
       _resolve_global sample_go_str sample_class_global [] "x" in
     exists i,
       w' = [] ++ [CheckedCall2 r "πg.ResolveGlobal(πF, πGlobals, {})" [i]]
       /\ resolve_name sample_go_str sample_adjust sample_class_global [] "x" =
          (Returned (GeneratedTempVar r), b',
           [] ++ [CheckedCall2 r "πg.ResolveClass(πF, πClass, {}, πGlobals, {})"
                               ["nil"; i]]).
Proof.
  split; [by apply elem_of_singleton|].
  exact (class_resolve_declared_global
           sample_go_str sample_adjust Alloc_init sample_function "C"
           {[ "x" ]} [] "x" (proj2 (elem_of_singleton _ _) eq_refl)).
Defined.

(** C1, as stated, fails: the class [C] declares [global x], and the call
    its [resolve_name] writes is neither the one the lookup of a global
    writes from that block nor the one [resolve_name] of the module block
    writes. *)
Lemma class_global_resolve_differs_from_module :
  "x" ∈ ({[ "x" ]} : gset string)
  /\ (resolve_name sample_go_str sample_adjust sample_class_global [] "x").2
     <> (_resolve_global sample_go_str sample_class_global [] "x").2
  /\ (resolve_name sample_go_str sample_adjust sample_class_global [] "x").2
     <> (resolve_name sample_go_str sample_adjust
                      (_module_block sample_class_global) [] "x").2.
Proof.
  split; [by apply elem_of_singleton|]. split; vm_compute; discriminate.
Qed.

Lemma function_bind_var_absent_witness :
  vars_get "y" [("x", mkVar "x" TYPE_LOCAL None)] = None
  /\ bind_var sample_go_str sample_adjust sample_function [] "y" "v"
     = (Raised (KeyError "y"), sample_function, [])
  /\ del_var sample_go_str sample_adjust sample_function [] "y"
     = (Raised (ParseError "cannot delete nonexistent local: y"),
        sample_function, []).
Proof.
  split; [reflexivity|].
  exact (function_bind_var_absent
           sample_go_str sample_adjust Alloc_init sample_module "f"
           [("x", mkVar "x" TYPE_LOCAL None)] false [] "y" "v" eq_refl).
Defined.

(** ** The visitor *)

Lemma vars_get_None x vs : vars_get x vs = None <-> x ∉ keys vs.
Proof.
  unfold keys. induction vs as [|[k v] vs IH]; simpl.
  - split; [intros _; apply not_elem_of_nil | done].
  - rewrite not_elem_of_cons. destruct (decide (k = x)) as [->|Hne].
    + split; [done | by intros []].
    + rewrite IH. naive_solver.
Qed.

Lemma vars_get_Some_key x v vs : vars_get x vs = Some v -> x ∈ keys vs.
Proof.
  intros H. destruct (decide (x ∈ keys vs)) as [|Hn]; [done|].
  apply vars_get_None in Hn. congruence.
Qed.

Lemma vars_set_absent x v vs :
  vars_get x vs = None -> vars_set x v vs = vs ++ [(x, v)].
Proof.
  induction vs as [|[k u] vs IH]; simpl; [done|].
  destruct (decide (k = x)); [done|]. intros H. by rewrite IH.
Qed.

Lemma vars_get_app x v vs ext :
  vars_get x vs = Some v -> vars_get x (vs ++ ext) = Some v.
Proof.
  induction vs as [|[k u] vs IH]; simpl; [done|].
  destruct (decide (k = x)); auto.
Qed.

Lemma keys_app vs ext : keys (vs ++ ext) = keys vs ++ keys ext.
Proof. unfold keys. apply fmap_app. Qed.

Lemma visits_vret {A : Type} (a : A) : visits (vret a) [].
Proof.
  intros st r st' H. inversion H; subst. split; [exists []; by rewrite app_nil_r|].
  split; [done|]. split; [auto|]. intros x Hx. by apply elem_of_nil in Hx.
Qed.

Lemma visits_vraise {A : Type} (e : exn) names : visits (@vraise A e) names.
Proof.
  intros st r st' H. inversion H; subst. split; [exists []; by rewrite app_nil_r|].
  split; [done|]. split; [auto|]. done.
Qed.

Lemma visits_vbind {A B : Type} (m : V A) (k : A -> V B) n1 n2 :
  visits m n1 -> (forall a, visits (k a) n2) -> visits (vbind m k) (n1 ++ n2).
Proof.
  intros Hm Hk st r st' H. unfold vbind in H.
  destruct (m st) as [[a|e] st1] eqn:E.
  - destruct (Hm _ _ _ E) as ([e1 H1] & Hnd1 & Hsub1 & Hin1).
    destruct (Hk a _ _ _ H) as ([e2 H2] & Hnd2 & Hsub2 & Hin2).
    split; [exists (e1 ++ e2); by rewrite H2, H1, app_assoc|].
    split; [auto|]. split.
    + intros x Hx. rewrite elem_of_app.
      destruct (Hsub2 x Hx) as [Hx1|]; [|auto].
      destruct (Hsub1 x Hx1); auto.
    + destruct r; [|done]. intros x Hx. apply elem_of_app in Hx as [Hx|Hx]; [|auto].
      rewrite H2, keys_app, elem_of_app. left. auto.
  - inversion H; subst.
    destruct (Hm _ _ _ E) as (He & Hnd1 & Hsub1 & _).
    split; [done|]. split; [done|]. split; [|done].
    intros x Hx. rewrite elem_of_app. destruct (Hsub1 x Hx); auto.
Qed.

Lemma visits_for_each {A : Type} (f : A -> V unit) (g : A -> list string) l :
  Forall (fun x => visits (f x) (g x)) l ->
  visits (for_each f l) (flat_map g l).
Proof.
  induction 1 as [|x l Hx Hl IH]; simpl.
  - apply visits_vret.
  - apply visits_vbind; auto.
Qed.

Lemma visits_for_each_all {A : Type} (f : A -> V unit) (g : A -> list string) l :
  (forall x, visits (f x) (g x)) -> visits (for_each f l) (flat_map g l).
Proof. intros H. apply visits_for_each, Forall_forall. auto. Qed.

Lemma visits_for_option {A : Type} (f : A -> V unit) (g : A -> list string) o :
  (forall x, visits (f x) (g x)) ->
  visits (for_option f o) (option_names g o).
Proof. destruct o as [x|]; simpl; [auto|]. intros _. apply visits_vret. Qed.

Lemma visits_on_option (f : node -> V unit) (g : node -> list string) o :
  on_option (fun n => visits (f n) (g n)) o ->
  visits (for_option f o) (option_names g o).
Proof. destruct o as [x|]; simpl; [auto|]. intros _. apply visits_vret. Qed.

Lemma visits_ext {A : Type} (m m' : V A) names :
  (forall st, m st = m' st) -> visits m' names -> visits m names.
Proof. intros E H st r st' Hm. rewrite E in Hm. by apply H. Qed.

Create HintDb visits.

#[local] Hint Resolve visits_vret visits_vraise visits_for_each
  visits_for_each_all visits_for_option visits_on_option : visits.

(** Splits a sequence of calls into its calls. *)
Ltac visits_seq := repeat (apply visits_vbind; [|intros _]).

Lemma register_local_eq x st :
  _register_local x st =
  match vars_get x (vars st) with
  | Some _ => (Returned (), st)
  | None => (Returned (),
             mkVisitor (vars st ++ [(x, mkVar x TYPE_LOCAL None)])
                       (is_generator st))
  end.
Proof.
  unfold _register_local, vbind, get_vars. simpl.
  destruct (vars_get x (vars st)) eqn:E; [done|].
  unfold set_var. by rewrite vars_set_absent.
Qed.

Lemma grows_by_one x v st gen :
  vars_get x (vars st) = None ->
  let st' := mkVisitor (vars st ++ [(x, v)]) gen in
  (exists ext, vars st' = vars st ++ ext)
  /\ (NoDup (keys (vars st)) -> NoDup (keys (vars st')))
  /\ (forall y, y ∈ keys (vars st') -> y ∈ keys (vars st) \/ y ∈ [x])
  /\ (forall y, y ∈ [x] -> y ∈ keys (vars st')).
Proof.
  intros Hx. simpl. apply vars_get_None in Hx.
  split; [eauto|]. rewrite keys_app. simpl. split; [|split].
  - intros Hnd. apply NoDup_app. split; [done|]. split.
    + intros y Hy Hy'. apply list_elem_of_singleton in Hy'. by subst.
    + apply NoDup_singleton.
  - intros y Hy. by apply elem_of_app in Hy.
  - intros y Hy. apply elem_of_app. by right.
Qed.

Lemma stays x st :
  x ∈ keys (vars st) ->
  (exists ext, vars st = vars st ++ ext)
  /\ (NoDup (keys (vars st)) -> NoDup (keys (vars st)))
  /\ (forall y, y ∈ keys (vars st) -> y ∈ keys (vars st) \/ y ∈ [x])
  /\ (forall y, y ∈ [x] -> y ∈ keys (vars st)).
Proof.
  intros Hx. split; [exists []; by rewrite app_nil_r|]. split; [done|].
  split; [auto|]. intros y Hy. apply list_elem_of_singleton in Hy. by subst.
Qed.

Lemma visits_register_local x : visits (_register_local x) [x].
Proof.
  intros st r st' H. rewrite register_local_eq in H.
  destruct (vars_get x (vars st)) eqn:E; inversion H; subst.
  - by apply stays, (vars_get_Some_key _ v).
  - by apply grows_by_one.
Qed.

Lemma register_global_eq x st :
  _register_global x st =
  match vars_get x (vars st) with
  | Some var =>
      match type var with
      | TYPE_PARAM =>
          (Raised (ParseError ("name '" +:+ x +:+ "' is parameter and global")), st)
      | TYPE_LOCAL =>
          (Raised (ParseError ("name '" +:+ x
                               +:+ "' is used prior to global declaration")), st)
      | TYPE_GLOBAL => (Returned (), st)
      end
  | None => (Returned (),
             mkVisitor (vars st ++ [(x, mkVar x TYPE_GLOBAL None)])
                       (is_generator st))
  end.
Proof.
  unfold _register_global, vbind, get_vars. simpl.
  destruct (vars_get x (vars st)) as [var|] eqn:E.
  - by destruct (type var).
  - unfold set_var. by rewrite vars_set_absent.
Qed.

Lemma visits_register_global x : visits (_register_global x) [x].
Proof.
  intros st r st' H. rewrite register_global_eq in H.
  destruct (vars_get x (vars st)) as [var|] eqn:E.
  - apply vars_get_Some_key in E.
    destruct (type var); inversion H; subst;
      destruct (stays x st' E) as (? & ? & ? & ?); auto.
  - inversion H; subst. by apply grows_by_one.
Qed.

Lemma visits_assign_target t : visits (_assign_target t) (target_names t).
Proof.
  induction t using node_nested_ind; simpl; auto with visits.
  apply visits_register_local.
Qed.

Lemma visits_node_id n : visits (node_id n) [].
Proof. destruct n; simpl; first [apply visits_vret | apply visits_vraise]. Qed.

Lemma visits_set_is_generator : visits set_is_generator [].
Proof.
  intros st r st' H. inversion H; subst; simpl.
  split; [exists []; by rewrite app_nil_r|]. split; [done|]. split; [auto|].
  intros x Hx. by apply elem_of_nil in Hx.
Qed.

Lemma visits_handler_name nm :
  visits (id <- node_id nm ;; _register_local id)
         (match nm with Name id => [id] | _ => [] end).
Proof.
  destruct nm;
    try (by apply (visits_ext _ (vraise (AttributeError "id")));
            [|apply visits_vraise]).
  by apply (visits_ext _ (_register_local id)); [|apply visits_register_local].
Qed.

Lemma flat_map_single {A B : Type} (f : A -> B) (l : list A) :
  flat_map (fun a => [f a]) l = map f l.
Proof. induction l; simpl; congruence. Qed.

#[local] Hint Resolve visits_register_local visits_register_global
  visits_assign_target visits_handler_name visits_set_is_generator : visits.

Lemma visits_visit cls n : visits (visit cls n) (bound_names cls n).
Proof.
  induction n using node_nested_ind; simpl; visits_seq; auto with visits.
  - pose proof (visits_for_each_all _register_global (fun a => [a]) names) as H.
    rewrite flat_map_single, map_id in H. auto with visits.
  - rewrite <- flat_map_single. auto with visits.
  - rewrite <- flat_map_single. auto with visits.
  - destruct cls; auto with visits.
Qed.

Lemma param_vars_from_cons i x names :
  param_vars_from i (x :: names) =
  (x, mkVar x TYPE_PARAM (Some i)) :: param_vars_from (S i) names.
Proof.
  unfold param_vars_from. simpl. rewrite Nat.add_0_r. f_equal.
  apply imap_ext. intros k y _. simpl. do 3 f_equal. lia.
Qed.

Lemma keys_param_vars_from i names : keys (param_vars_from i names) = names.
Proof.
  revert i. induction names as [|x names IH]; intros i; [done|].
  rewrite param_vars_from_cons. unfold keys in *. simpl. by rewrite IH.
Qed.

Lemma register_params_ok names : forall i st,
  NoDup names -> (forall x, x ∈ names -> x ∉ keys (vars st)) ->
  register_params i names st =
  (Returned (), mkVisitor (vars st ++ param_vars_from i names) (is_generator st)).
Proof.
  induction names as [|x names IH]; intros i st Hnd Hfresh; simpl.
  - unfold vret. rewrite app_nil_r. by destruct st.
  - apply NoDup_cons in Hnd as [Hx Hnd].
    unfold vbind at 1, get_vars. simpl.
    assert (vars_get x (vars st) = None) as E.
    { apply vars_get_None, Hfresh. left. }
    rewrite E. unfold vbind, set_var. rewrite vars_set_absent by done.
    rewrite IH; simpl; [|done|].
    + by rewrite param_vars_from_cons, <- app_assoc.
    + intros y Hy. rewrite keys_app, not_elem_of_app. split.
      * apply Hfresh. by right.
      * simpl. intros Hy'. apply list_elem_of_singleton in Hy'. by subst.
Qed.

Lemma register_params_dup names : forall i st,
  ~ (NoDup names /\ forall x, x ∈ names -> x ∉ keys (vars st)) ->
  exists x st' pre post,
    names = pre ++ x :: post /\ x ∈ keys (vars st) ++ pre /\
    register_params i names st = (Raised (duplicate_argument x), st').
Proof.
  induction names as [|x names IH]; intros i st Hbad; simpl.
  - exfalso. apply Hbad. split; [constructor|]. intros x Hx.
    by apply elem_of_nil in Hx.
  - unfold vbind at 1, get_vars. simpl.
    destruct (vars_get x (vars st)) as [v|] eqn:E.
    + exists x, st, [], names. split; [done|]. split; [|done].
      rewrite app_nil_r. by apply (vars_get_Some_key _ v).
    + unfold vbind, set_var. rewrite vars_set_absent by done.
      apply vars_get_None in E.
      edestruct (IH (S i)) as (y & st' & pre & post & -> & Hy & Hr).
      2: { exists y, st', (x :: pre), post. split; [done|]. split; [|exact Hr].
           simpl in Hy. rewrite keys_app, <- app_assoc in Hy. exact Hy. }
      simpl. intros [Hnd Hfresh]. apply Hbad. split.
      * apply NoDup_cons. split; [|done]. intros Hx.
        apply (Hfresh x Hx). rewrite keys_app, elem_of_app. right. simpl. left.
      * intros y Hy. apply elem_of_cons in Hy as [->|Hy]; [done|].
        specialize (Hfresh y Hy). rewrite keys_app, not_elem_of_app in Hfresh.
        tauto.
Qed.

Lemma arg_ids_Names ids st : arg_ids (map Name ids) st = (Returned ids, st).
Proof.
  induction ids as [|x ids IH]; simpl; [done|].
  unfold vbind. simpl. by rewrite IH.
Qed.

Lemma arg_ids_returned args : forall st ids st',
  arg_ids args st = (Returned ids, st') ->
  st' = st /\
  ids = flat_map (fun a => match a with Name id => [id] | _ => [] end) args.
Proof.
  induction args as [|a args IH]; intros st ids st' H; simpl in H.
  - by inversion H.
  - unfold vbind in H. destruct a; simpl in H; try discriminate.
    destruct (arg_ids args st) as [[ids'|e] st1] eqn:E; [|discriminate].
    inversion H; subst. apply IH in E as [-> ->]. done.
Qed.

Lemma visits_body cls body :
  visits (for_each (visit cls) body) (flat_map (bound_names cls) body).
Proof. apply visits_for_each_all, visits_visit. Qed.

Lemma opt_name_option_list (o : option string) :
  o <> Some "" -> opt_name o = option_list o.
Proof. by destruct o as [[|c s]|]. Qed.

Lemma param_vars_lookup names i x :
  names !! i = Some x ->
  param_vars names !! i = Some (x, mkVar x TYPE_PARAM (Some i)).
Proof.
  intros H. unfold param_vars, param_vars_from.
  etrans; [apply list_lookup_imap|]. by rewrite H.
Qed.



(** C3, as the code has it: when the classification of a function returns,
    its variables have exactly one entry for each parameter and each name
    the body binds (targets of assignments, of [for] and of [with], names
    of handlers, imported names, names of nested definitions, names
    declared global), no name twice, and no entry for any other name: a
    name the body only reads has none. *)
Theorem classified_names_are_the_bound_names (n : node) (st : Visitor) :
  classify_function n = (Returned (), st) ->
  NoDup (keys (vars st))
  /\ forall x, x ∈ keys (vars st) <->
       x ∈ param_names n
       \/ x ∈ flat_map (bound_names FunctionBlockVisitor) (body_of n).
Proof.
  destruct n; try discriminate. simpl.
  unfold vbind at 1. unfold vbind at 1.
  destruct (arg_ids args BlockVisitor_new) as [[ids|e] st0] eqn:Ea; [|discriminate].
  apply arg_ids_returned in Ea as [-> ->].
  set (names := _ ++ opt_name vararg ++ opt_name kwarg).
  destruct (decide (NoDup names)) as [Hnd|Hdup].
  - rewrite register_params_ok; [|done|intros x _; apply not_elem_of_nil].
    simpl. intros E.
    destruct (visits_body _ _ _ _ _ E) as ([ext Hext] & Hk & Hsub & Hin).
    simpl in *. rewrite keys_param_vars_from in *.
    split; [auto|]. intros x. split; [apply Hsub|].
    intros [Hx|Hx]; [|auto].
    rewrite Hext, keys_app, keys_param_vars_from, elem_of_app. by left.
  - destruct (register_params_dup names 0 BlockVisitor_new)
      as (x & st' & pre & post & _ & _ & Hr).
    { intros [Hnd _]. done. }
    rewrite Hr. discriminate.
Qed.

Lemma for_each_app {A : Type} (f : A -> V unit) l1 l2 st :
  for_each f (l1 ++ l2) st =
  match for_each f l1 st with
  | (Returned _, st1) => for_each f l2 st1
  | (Raised e, st1) => (Raised e, st1)
  end.
Proof.
  revert st. induction l1 as [|x l1 IH]; intros st; simpl; [done|].
  unfold vbind. destruct (f x st) as [[[]|e] st1]; [apply IH|done].
Qed.

Lemma for_each_cons {A : Type} (f : A -> V unit) x l st :
  for_each f (x :: l) st =
  match f x st with
  | (Returned _, st1) => for_each f l st1
  | (Raised e, st1) => (Raised e, st1)
  end.
Proof. simpl. unfold vbind. by destruct (f x st) as [[[]|e] st1]. Qed.

Lemma vars_get_snoc x v vs :
  vars_get x vs = None -> vars_get x (vs ++ [(x, v)]) = Some v.
Proof.
  induction vs as [|[k u] vs IH]; simpl.
  - by destruct (decide (x = x)).
  - destruct (decide (k = x)); [done|exact IH].
Qed.

Lemma body_keeps_entry cls body x v st :
  vars_get x (vars st) = Some v ->
  vars_get x (vars (for_each (visit cls) body st).2) = Some v.
Proof.
  intros Hv. destruct (for_each (visit cls) body st) as [r s] eqn:E.
  destruct (visits_body _ _ _ _ _ E) as ([ext Hext] & _).
  cbn [snd]. rewrite Hext. by apply vars_get_app.
Qed.

(** An assignment whose first target is a name no entry has yet registers
    the name as a local before anything else, whatever its outcome. *)
Lemma assign_registers_local cls x targets value st r s :
  vars_get x (vars st) = None ->
  visit cls (Assign (Name x :: targets) value) st = (r, s) ->
  vars_get x (vars s) = Some (mkVar x TYPE_LOCAL None).
Proof.
  intros Hx H. cbn [visit for_each _assign_target] in H.
  unfold vbind at 1 2 in H. rewrite register_local_eq, Hx in H.
  set (st1 := mkVisitor _ _) in H.
  assert (vars_get x (vars st1) = Some (mkVar x TYPE_LOCAL None)) as H1
    by (by apply vars_get_snoc).
  destruct (for_each _assign_target targets st1) as [[[]|e] s1] eqn:E1.
  - destruct (visits_for_each_all _ _ targets visits_assign_target _ _ _ E1)
      as ([ext1 Hext1] & _).
    destruct (visits_visit _ _ _ _ _ H) as ([ext2 Hext2] & _).
    rewrite Hext2, Hext1. by apply vars_get_app, vars_get_app.
  - inversion H; subst.
    destruct (visits_for_each_all _ _ targets visits_assign_target _ _ _ E1)
      as ([ext1 Hext1] & _).
    rewrite Hext1. by apply vars_get_app.
Qed.

(** The cases of a [global] statement for a name after the statements
    [pre] of a body, for either visitor and from whatever state [st0] its
    constructor left. *)
Lemma global_statement_cases
    (cls : visitor_class) (st0 : Visitor)
    (pre : list node) (x : string) (st : Visitor) :
  let run body := for_each (visit cls) body st0 in
  run pre = (Returned (), st) ->
  match vars_get x (vars st) with
  | Some var =>
      match type var with
      | TYPE_PARAM =>
          forall rest post,
            run (pre ++ Global (x :: rest) :: post)
            = (Raised (ParseError ("name '" +:+ x +:+ "' is parameter and global")),
               st)
      | TYPE_LOCAL =>
          forall rest post,
            run (pre ++ Global (x :: rest) :: post)
            = (Raised (ParseError ("name '" +:+ x
                                   +:+ "' is used prior to global declaration")),
               st)
      | TYPE_GLOBAL =>
          run (pre ++ [Global [x]]) = (Returned (), st)
          /\ forall post,
               vars_get x (vars (run (pre ++ post)).2) = Some var
               /\ vars_get x (vars (run (pre ++ Global [x] :: post)).2) = Some var
      end
  | None =>
      run (pre ++ [Global [x]])
      = (Returned (),
         mkVisitor (vars st ++ [(x, mkVar x TYPE_GLOBAL None)]) (is_generator st))
      /\ (forall post,
            vars_get x (vars (run (pre ++ Global [x] :: post)).2)
            = Some (mkVar x TYPE_GLOBAL None))
      /\ forall targets value rest post,
           let assigned := run (pre ++ [Assign (Name x :: targets) value]) in
           vars_get x (vars assigned.2) = Some (mkVar x TYPE_LOCAL None)
           /\ (assigned.1 = Returned () ->
               run (pre ++ Assign (Name x :: targets) value
                        :: Global (x :: rest) :: post)
               = (Raised (ParseError ("name '" +:+ x
                                      +:+ "' is used prior to global declaration")),
                  assigned.2))
  end.
Proof.
  cbn zeta. intros Hpre.
  assert (forall post, for_each (visit cls) (pre ++ post) st0
                       = for_each (visit cls) post st) as Hrun.
  { intros post. by rewrite for_each_app, Hpre. }
  assert (forall rest post s,
            for_each (visit cls) (Global (x :: rest) :: post) s
            = match _register_global x s with
              | (Returned _, s1) =>
                  for_each (visit cls) (Global rest :: post) s1
              | (Raised e, s1) => (Raised e, s1)
              end) as Hg.
  { intros rest post s. rewrite !for_each_cons. cbn [visit].
    rewrite for_each_cons. by destruct (_register_global x s) as [[[]|e] s1]. }
  destruct (vars_get x (vars st)) as [var|] eqn:E.
  - destruct (type var) eqn:Ety.
    + intros rest post. by rewrite Hrun, Hg, register_global_eq, E, Ety.
    + intros rest post. by rewrite Hrun, Hg, register_global_eq, E, Ety.
    + split.
      * by rewrite Hrun, Hg, register_global_eq, E, Ety.
      * intros post. rewrite !Hrun, Hg, register_global_eq, E, Ety.
        cbn [for_each vret]. split; by apply body_keeps_entry.
  - split; [|split].
    + by rewrite Hrun, Hg, register_global_eq, E.
    + intros post. rewrite Hrun, Hg, register_global_eq, E.
      cbn [for_each vret]. apply body_keeps_entry.
      cbn [vars]. by apply vars_get_snoc.
    + intros targets value rest post. cbn zeta. rewrite !Hrun.
      rewrite !(for_each_cons _ (Assign _ _)).
      destruct (visit cls (Assign (Name x :: targets) value) st)
        as [r s] eqn:Ea.
      pose proof (assign_registers_local _ _ _ _ _ _ _ E Ea) as Hl.
      destruct r as [[]|e]; cbn [fst snd]; (split; [exact Hl|]).
      * intros _. by rewrite Hg, register_global_eq, Hl.
      * done.
Qed.



Lemma sample_def_classified :
  classify_function sample_def =
  (Returned (),
   mkVisitor [("a", mkVar "a" TYPE_PARAM (Some 0));
              ("total", mkVar "total" TYPE_GLOBAL None);
              ("count", mkVar "count" TYPE_LOCAL None);
              ("inner", mkVar "inner" TYPE_LOCAL None)] false).
Proof. reflexivity. Defined.

Lemma classified_names_are_the_bound_names_witness :
  classify_function sample_def =
  (Returned (),
   mkVisitor [("a", mkVar "a" TYPE_PARAM (Some 0));
              ("total", mkVar "total" TYPE_GLOBAL None);
              ("count", mkVar "count" TYPE_LOCAL None);
              ("inner", mkVar "inner" TYPE_LOCAL None)] false)
  /\ NoDup ["a"; "total"; "count"; "inner"]
  /\ forall x, x ∈ ["a"; "total"; "count"; "inner"] <->
       x ∈ param_names sample_def
       \/ x ∈ flat_map (bound_names FunctionBlockVisitor) (body_of sample_def).
Proof.
  split; [exact sample_def_classified|].
  exact (classified_names_are_the_bound_names sample_def _ sample_def_classified).
Defined.

(** C3, as stated, fails: the body [x = y] reads [y], the classification
    returns, and the variables have no entry for [y]. *)
Lemma read_only_name_has_no_entry :
  exists st,
    classify_function sample_read = (Returned (), st)
    /\ "y" ∈ flat_map referenced_names (body_of sample_read)
    /\ "y" ∉ keys (vars st).
Proof.
  eexists. split; [reflexivity|]. simpl. split.
  - apply elem_of_cons. right. apply elem_of_cons. by left.
  - intros H. apply elem_of_cons in H as [H|H]; [discriminate|].
    by apply elem_of_nil in H.
Qed.

(** * Further properties *)

(** ** Loops and labels *)

Lemma push_loop_eq a :
  push_loop a =
  (mkLoop (S (label_count a)) (S (S (label_count a))),
   {| free_temps := free_temps a; used_temps := used_temps a;
      temp_index := temp_index a; label_count := S (S (label_count a));
      checkpoints := checkpoints a;
      loop_stack := loop_stack a
                    ++ [mkLoop (S (label_count a)) (S (S (label_count a)))] |}).
Proof. reflexivity. Qed.

Lemma pop_loop_snoc a l loop :
  loop_stack a = l ++ [loop] ->
  pop_loop a =
  Some {| free_temps := free_temps a; used_temps := used_temps a;
          temp_index := temp_index a; label_count := label_count a;
          checkpoints := checkpoints a; loop_stack := l |}.
Proof.
  intros E. unfold pop_loop. rewrite E.
  destruct (l ++ [loop]) eqn:E2; [by destruct l|].
  rewrite <- E2. by rewrite removelast_last.
Qed.

(** A loop pushed on a block takes the next two labels, neither of them a
    checkpoint, and is the top of the stack; popping it gives the stack
    back but not the labels. *)
Theorem push_loop_then_pop (a : Alloc) :
  let '(loop, a') := push_loop a in
  start_label loop = label_count a + 1
  /\ end_label loop = label_count a + 2
  /\ checkpoints a' = checkpoints a
  /\ top_loop a' = Some loop
  /\ exists a'', pop_loop a' = Some a''
       /\ loop_stack a'' = loop_stack a
       /\ label_count a'' = label_count a + 2.
Proof.
  rewrite push_loop_eq. simpl.
  split; [lia|]. split; [lia|]. split; [done|]. split.
  - unfold top_loop. simpl. apply last_snoc.
  - eexists. split; [by eapply pop_loop_snoc|]. simpl. split; [done|lia].
Qed.

Lemma pushes_spec n : forall a,
  exists a1, calls (replicate n CallPushLoop) a = Some a1
    /\ length (loop_stack a1) = length (loop_stack a) + n
    /\ take (length (loop_stack a)) (loop_stack a1) = loop_stack a.
Proof.
  induction n as [|n IH]; intros a; simpl.
  - exists a. split; [done|]. split; [lia|]. by rewrite firstn_all.
  - destruct (IH (push_loop a).2) as (a1 & H1 & H2 & H3).
    exists a1. split; [done|]. rewrite push_loop_eq in H2, H3. simpl in *.
    rewrite length_app in H2, H3. simpl in *. split; [lia|].
    apply (f_equal (take (length (loop_stack a)))) in H3.
    rewrite take_take, Nat.min_l in H3 by lia.
    by rewrite H3, take_app_length.
Qed.

Lemma pops_spec k : forall a,
  if decide (k <= length (loop_stack a)) then
    exists a', calls (replicate k CallPopLoop) a = Some a'
      /\ loop_stack a' = take (length (loop_stack a) - k) (loop_stack a)
  else calls (replicate k CallPopLoop) a = None.
Proof.
  induction k as [|k IH]; intros a.
  - destruct (decide (0 <= length (loop_stack a))); [|lia].
    exists a. split; [done|]. by rewrite Nat.sub_0_r, firstn_all.
  - destruct (loop_stack a) as [|x l _] eqn:E using rev_ind.
    + destruct (decide (S k <= length [])); [simpl in *; lia|].
      simpl. unfold pop_loop. by rewrite E.
    + simpl calls. rewrite (pop_loop_snoc a l x E).
      specialize (IH {| free_temps := free_temps a; used_temps := used_temps a;
                        temp_index := temp_index a; label_count := label_count a;
                        checkpoints := checkpoints a; loop_stack := l |}).
      simpl loop_stack in IH. rewrite length_app. simpl length.
      destruct (decide (k <= length l)) as [Hk|Hk];
        destruct (decide (S k <= length l + 1)); try lia; [|done].
      destruct IH as (a' & H1 & H2).
      exists a'. split; [done|]. rewrite H2.
      replace (length l + 1 - S k) with (length l - k) by lia.
      by rewrite take_app_le by lia.
Qed.

(** After n loops are pushed the stack is n longer, with the old stack below;
    n pops then leave the old stack, and popping more loops than the stack
    holds raises. *)
Theorem loops_balance (n : nat) (a : Alloc) :
  exists a1, calls (replicate n CallPushLoop) a = Some a1
    /\ length (loop_stack a1) = length (loop_stack a) + n
    /\ (exists a2, calls (replicate n CallPopLoop) a1 = Some a2
          /\ loop_stack a2 = loop_stack a)
    /\ calls (replicate (S (length (loop_stack a1))) CallPopLoop) a1 = None.
Proof.
  destruct (pushes_spec n a) as (a1 & H1 & H2 & H3).
  exists a1. split; [done|]. split; [done|]. split.
  - pose proof (pops_spec n a1) as Hp.
    destruct (decide (n <= length (loop_stack a1))); [|lia].
    destruct Hp as (a2 & Hc & Hs).
    exists a2. split; [done|]. rewrite Hs.
    replace (length (loop_stack a1) - n) with (length (loop_stack a)) by lia.
    done.
  - pose proof (pops_spec (S (length (loop_stack a1))) a1) as Hp.
    destruct (decide (S (length (loop_stack a1)) <= length (loop_stack a1)));
      [lia|done].
Qed.

Lemma labels_ok_genlabel f a : labels_ok a -> labels_ok (genlabel f a).2.
Proof.
  intros (Hc & Hl & Ho). split; [|split]; simpl.
  - intros n Hn. destruct f.
    + apply elem_of_union in Hn as [Hn|Hn].
      * apply elem_of_singleton in Hn. lia.
      * apply Hc in Hn. lia.
    + apply Hc in Hn. lia.
  - intros l Hin. apply Hl in Hin. lia.
  - exact Ho.
Qed.

Lemma labels_ok_push_loop a : labels_ok a -> labels_ok (push_loop a).2.
Proof.
  intros (Hc & Hl & Ho). rewrite push_loop_eq. split; [|split]; simpl.
  - intros n Hn. apply Hc in Hn. lia.
  - intros l Hin. apply elem_of_app in Hin as [Hin|Hin].
    + apply Hl in Hin. lia.
    + apply list_elem_of_singleton in Hin as ->. simpl. lia.
  - intros i j li lj Hij Hi Hj.
    destruct (decide (j < length (loop_stack a))) as [Hlt|Hge].
    + rewrite lookup_app_l in Hi, Hj by lia. eauto.
    + assert (i < length (loop_stack a ++ [mkLoop (S (label_count a))
                                            (S (S (label_count a)))])) as Hi'
        by (apply lookup_lt_is_Some; eauto).
      assert (j < length (loop_stack a ++ [mkLoop (S (label_count a))
                                            (S (S (label_count a)))])) as Hj'
        by (apply lookup_lt_is_Some; eauto).
      rewrite length_app in Hi', Hj'. simpl in *.
      rewrite lookup_app_l in Hi by lia.
      rewrite lookup_app_r in Hj by lia.
      replace (j - length (loop_stack a)) with 0 in Hj by lia.
      inversion Hj; subst. simpl.
      assert (li ∈ loop_stack a) as Hin by (eapply list_elem_of_lookup_2; eauto).
      apply Hl in Hin. lia.
Qed.

Lemma labels_ok_pop_loop a a' : labels_ok a -> pop_loop a = Some a' -> labels_ok a'.
Proof.
  intros (Hc & Hl & Ho) H.
  destruct (loop_stack a) as [|x l _] eqn:E using rev_ind.
  - unfold pop_loop in H. by rewrite E in H.
  - rewrite (pop_loop_snoc a l x E) in H. inversion H; subst. clear H.
    split; [|split]; simpl.
    + exact Hc.
    + intros l0 Hin. apply Hl. apply elem_of_app. by left.
    + intros i j li lj Hij Hi Hj.
      apply (Ho i j); [done| |]; by apply lookup_app_l_Some.
Qed.

Lemma labels_ok_call c a a' : labels_ok a -> call c a = Some a' -> labels_ok a'.
Proof.
  intros Hok H. destruct c; simpl in H.
  - inversion H; subst. by apply labels_ok_genlabel.
  - inversion H; subst. unfold alloc_temp.
    destruct (List.find _ _); exact Hok.
  - unfold free_temp in H. destruct (decide _); inversion H; subst. exact Hok.
  - inversion H; subst. by apply labels_ok_push_loop.
  - by eapply labels_ok_pop_loop.
Qed.

Lemma calls_invariant (I : Alloc -> Prop) :
  (forall c a a', I a -> call c a = Some a' -> I a') ->
  forall cs a a', I a -> calls cs a = Some a' -> I a'.
Proof.
  intros Hstep. induction cs as [|c cs IH]; intros a a' Ha H; simpl in H.
  - by inversion H; subst.
  - destruct (call c a) as [a1|] eqn:E; [|done]. eauto.
Qed.

(** Whatever a block has been asked for since its creation, its checkpoints
    are labels it has generated, every loop on its stack holds two
    consecutive generated labels, and an inner loop has later labels than
    the loops around it. *)
Theorem labels_stay_ok (cs : list alloc_call) (a : Alloc) :
  calls cs Alloc_init = Some a -> labels_ok a.
Proof.
  apply (calls_invariant labels_ok); [apply labels_ok_call|].
  split; [|split]; simpl.
  - intros n Hn. by apply elem_of_empty in Hn.
  - intros l Hl. by apply elem_of_nil in Hl.
  - intros i j li lj _ Hi. by rewrite lookup_nil in Hi.
Qed.

(** ** More on temporaries *)

Lemma string_leb_trans s1 : forall s2 s3,
  String.leb s1 s2 = true -> String.leb s2 s3 = true ->
  String.leb s1 s3 = true.
Proof.
  unfold String.leb.
  induction s1 as [|c1 s1 IH]; intros [|c2 s2] [|c3 s3]; simpl; try done.
  unfold Ascii.compare.
  destruct (N.compare_spec (N_of_ascii c1) (N_of_ascii c2)) as [E12|L12|G12];
    destruct (N.compare_spec (N_of_ascii c2) (N_of_ascii c3)) as [E23|L23|G23];
    destruct (N.compare_spec (N_of_ascii c1) (N_of_ascii c3)) as [E13|L13|G13];
    try done; try lia.
  apply IH.
Qed.

Lemma string_leb_refl s : String.leb s s = true.
Proof. by destruct (String.leb_total s s). Qed.

Lemma name_sorted_insert v l :
  name_sorted l -> name_sorted (insert_by_name v l).
Proof.
  induction l as [|u l IH]; simpl; [by intros _; split|].
  intros [Hu Hl]. destruct (String.leb (tv_name v) (tv_name u)) eqn:E; simpl.
  - split; [|by split]. intros x [<-|Hx]; [done|].
    eapply string_leb_trans; eauto.
  - split; [|auto]. intros x Hx. apply In_insert_by_name in Hx as [->|Hx]; [|auto].
    by destruct (String.leb_total (tv_name v) (tv_name u)) as [H|H];
      [rewrite H in E|].
Qed.

Lemma name_sorted_sorted_by_name l : name_sorted (sorted_by_name l).
Proof. induction l; simpl; [done|]. by apply name_sorted_insert. Qed.

Lemma find_least (p : TempVar -> bool) l v :
  name_sorted l -> List.find p l = Some v ->
  forall u, In u l -> p u = true ->
    String.leb (tv_name v) (tv_name u) = true.
Proof.
  induction l as [|x l IH]; simpl; [done|].
  intros [Hx Hl] H u Hu Hp. destruct (p x) eqn:E.
  - inversion H; subst. destruct Hu as [<-|Hu]; [apply string_leb_refl|auto].
  - destruct Hu as [<-|Hu]; [congruence|]. eauto.
Qed.

(** [alloc_temp] returns a temporary of the type asked for; when a free
    temporary has that type, it returns a free one whose name is the least
    among the free ones of that type and makes no new one; otherwise it
    makes the one named after the next index. *)
Theorem alloc_temp_takes_least_name (ty : string) (a : Alloc) :
  let '(v, a') := alloc_temp ty a in
  type_ v = ty
  /\ (forall u, u ∈ free_temps a -> type_ u = ty ->
        v ∈ free_temps a /\ temp_index a' = temp_index a
        /\ String.leb (tv_name v) (tv_name u) = true)
  /\ ((forall u, u ∈ free_temps a -> type_ u <> ty) ->
        v = mkTemp (temp_name (S (temp_index a))) ty
        /\ temp_index a' = S (temp_index a)).
Proof.
  unfold alloc_temp.
  destruct (List.find _ _) as [v|] eqn:E.
  - pose proof (alloc_temp_found _ _ _ E) as [Hin Hty].
    split; [done|]. split.
    + intros u Hu Htu. split; [done|]. split; [done|].
      eapply find_least; [apply name_sorted_sorted_by_name|exact E| |].
      * by apply In_sorted_by_name, list_elem_of_In, elem_of_elements.
      * by apply bool_decide_eq_true.
    + intros Hnone. by destruct (Hnone v Hin).
  - split; [done|]. split; [|done].
    intros u Hu Htu. by destruct (alloc_temp_none _ _ E u Hu).
Qed.

Lemma temps_count_alloc ty a :
  temps_ok a ->
  size (free_temps a ∪ used_temps a) = temp_index a ->
  size (free_temps (alloc_temp ty a).2 ∪ used_temps (alloc_temp ty a).2)
  = temp_index (alloc_temp ty a).2.
Proof.
  intros [Hd Hn] Hsz. unfold alloc_temp.
  destruct (List.find _ _) as [v|] eqn:E; simpl.
  - apply alloc_temp_found in E as [Hin _]. rewrite <- Hsz. f_equal.
    apply set_eq. intros x. destruct (decide (x = v)); set_solver.
  - set (v := mkTemp (temp_name (S (temp_index a))) ty).
    assert (v ∉ free_temps a ∪ used_temps a) as Hfresh.
    { intros Hv. destruct (Hn v Hv) as (i & Hi & Hnm).
      simpl in Hnm. apply temp_name_inj in Hnm. lia. }
    replace (free_temps a ∪ ({[v]} ∪ used_temps a))
      with ({[v]} ∪ (free_temps a ∪ used_temps a)) by set_solver.
    rewrite size_union by set_solver. rewrite size_singleton. lia.
Qed.

Lemma temps_count_call c a a' :
  temps_ok a /\ size (free_temps a ∪ used_temps a) = temp_index a ->
  call c a = Some a' ->
  temps_ok a' /\ size (free_temps a' ∪ used_temps a') = temp_index a'.
Proof.
  intros [Hok Hsz] H. destruct c; simpl in H.
  - inversion H; subst. done.
  - inversion H; subst. split.
    + eapply temps_ok_alloc; [done|]. apply surjective_pairing.
    + by apply temps_count_alloc.
  - destruct (free_temp v a) as [[[]|e] a1] eqn:E; inversion H; subst.
    split; [by eapply temps_ok_free|].
    unfold free_temp in E. destruct (decide (v ∈ used_temps a)); inversion E.
    simpl. rewrite <- Hsz. f_equal.
    apply set_eq. intros x. destruct (decide (x = v)); set_solver.
  - inversion H; subst. done.
  - unfold pop_loop in H. destruct (loop_stack a); inversion H; subst. done.
Qed.

(** Whatever a block has been asked for since its creation, no temporary is
    both free and used, and the free and the used ones together are as
    many as the index tells: every temporary the block made is in exactly
    one of the two sets. *)
Theorem temps_stay_partitioned (cs : list alloc_call) (a : Alloc) :
  calls cs Alloc_init = Some a ->
  free_temps a ## used_temps a
  /\ size (free_temps a ∪ used_temps a) = temp_index a.
Proof.
  intros H.
  cut (temps_ok a /\ size (free_temps a ∪ used_temps a) = temp_index a).
  { intros [[Hd _] Hs]. done. }
  revert H. apply (calls_invariant
    (fun a => temps_ok a /\ size (free_temps a ∪ used_temps a) = temp_index a)).
  - apply temps_count_call.
  - split; [apply reachable_temps_ok, reachable_init|].
    unfold Alloc_init. cbn [free_temps used_temps temp_index].
    rewrite union_empty_r_L. apply size_empty.
Qed.

Lemma sample_state_run : calls sample_calls Alloc_init = Some sample_state.
Proof. vm_compute. reflexivity. Defined.

Lemma labels_stay_ok_witness :
  calls sample_calls Alloc_init = Some sample_state /\ labels_ok sample_state.
Proof.
  split; [exact sample_state_run|].
  exact (labels_stay_ok sample_calls sample_state sample_state_run).
Defined.

Lemma temps_stay_partitioned_witness :
  calls sample_calls Alloc_init = Some sample_state
  /\ free_temps sample_state ## used_temps sample_state
  /\ size (free_temps sample_state ∪ used_temps sample_state)
     = temp_index sample_state.
Proof.
  split; [exact sample_state_run|].
  exact (temps_stay_partitioned sample_calls sample_state sample_state_run).
Defined.

(** ** Packages *)

Lemma add_native_import_eq runtime name imports :
  add_native_import runtime name imports =
  let key := if decide (name = "grumpy") then runtime else name in
  let alias := if decide (name = "grumpy") then Some "πg" else None in
  match imports !! key with
  | Some package => (package, imports)
  | None => (Package_new key alias, <[key := Package_new key alias]> imports)
  end.
Proof. unfold add_native_import. by destruct (decide (name = "grumpy")). Qed.

Lemma pkg_name_Package_new name alias : pkg_name (Package_new name alias) = name.
Proof. by destruct alias as [[|c s]|]. Qed.

(** Registering a package keeps every package stored under its own name and
    keeps the packages already there; the package it returns is the one
    stored under its name; and registering the same name again returns the
    same package and changes nothing. *)
Theorem add_native_import_registers_once
    (runtime name : string) (imports : gmap string Package) :
  imports_ok imports ->
  let '(p, imports') := add_native_import runtime name imports in
  imports_ok imports'
  /\ imports ⊆ imports'
  /\ imports' !! pkg_name p = Some p
  /\ add_native_import runtime name imports' = (p, imports').
Proof.
  intros Hok. rewrite !add_native_import_eq. simpl.
  set (key := if decide (name = "grumpy") then runtime else name).
  set (alias := if decide (name = "grumpy") then Some "πg" else None).
  destruct (imports !! key) as [p|] eqn:E.
  - split; [done|]. split; [done|]. rewrite add_native_import_eq. simpl.
    fold key. rewrite E. split; [|done]. by rewrite (Hok _ _ E).
  - split; [|split; [|split]].
    + intros k p Hk. apply lookup_insert_Some in Hk as [[<- <-]|[_ Hk]].
      * apply pkg_name_Package_new.
      * by apply Hok.
    + by apply insert_subseteq.
    + rewrite pkg_name_Package_new. apply lookup_insert_eq.
    + rewrite add_native_import_eq. simpl. fold key.
      by rewrite lookup_insert_eq.
Qed.

Lemma add_native_import_registers_once_witness :
  imports_ok ∅
  /\ let '(p, imports') := add_native_import "grumpy/lib" "os/path" ∅ in
     imports_ok imports'
     /\ ∅ ⊆ imports'
     /\ imports' !! pkg_name p = Some p
     /\ add_native_import "grumpy/lib" "os/path" imports' = (p, imports').
Proof.
  assert (imports_ok ∅) as H by (intros k p Hk; by rewrite lookup_empty in Hk).
  split; [exact H|].
  exact (add_native_import_registers_once "grumpy/lib" "os/path" ∅ H).
Defined.

(** While the runtime package is not registered, registering it under the
    name [grumpy] gives it the fixed alias. Registered first under its own
    name it gets the alias derived from that name, which is never the fixed
    one, unless its own name is [grumpy] itself, when it gets the fixed
    alias; either way a later registration under [grumpy] returns the
    package of the first one. *)
Theorem runtime_alias_depends_on_first_registration
    (runtime : string) (imports : gmap string Package) :
  imports !! runtime = None ->
  (add_native_import runtime "grumpy" imports).1 = mkPackage runtime "πg"
  /\ let '(p1, imports1) := add_native_import runtime runtime imports in
     (add_native_import runtime "grumpy" imports1).1 = p1
     /\ if decide (runtime = "grumpy") then p1 = mkPackage runtime "πg"
        else p1 = mkPackage runtime ("π_" +:+ replace_slash runtime)
             /\ alias_ p1 <> "πg".
Proof.
  intros Hnone. rewrite !add_native_import_eq. simpl.
  destruct (decide (runtime = "grumpy")) as [Heq|Hne].
  - rewrite Hnone. split; [done|]. split; [|done].
    rewrite add_native_import_eq. simpl. by rewrite lookup_insert_eq.
  - rewrite Hnone. split; [done|]. split.
    + rewrite add_native_import_eq. simpl. by rewrite lookup_insert_eq.
    + split; [done|]. simpl. discriminate.
Qed.

Lemma runtime_alias_depends_on_first_registration_witness :
  (∅ : gmap string Package) !! "grumpy/runtime" = None
  /\ (add_native_import "grumpy/runtime" "grumpy" ∅).1
     = mkPackage "grumpy/runtime" "πg"
  /\ let '(p1, imports1) := add_native_import "grumpy/runtime" "grumpy/runtime" ∅ in
     (add_native_import "grumpy/runtime" "grumpy" imports1).1 = p1
     /\ if decide ("grumpy/runtime" = "grumpy")
        then p1 = mkPackage "grumpy/runtime" "πg"
        else p1 = mkPackage "grumpy/runtime"
                            ("π_" +:+ replace_slash "grumpy/runtime")
             /\ alias_ p1 <> "πg".
Proof.
  split; [reflexivity|].
  exact (runtime_alias_depends_on_first_registration
           "grumpy/runtime" ∅ eq_refl).
Defined.

Lemma replace_slash_no_slash s :
  ~ In "/"%char (String.list_ascii_of_string (replace_slash s)).
Proof.
  induction s as [|c s IH]; simpl; [tauto|].
  destruct (Ascii.eqb c "/") eqn:E; simpl.
  - intros [H|[H|H]]; [discriminate|discriminate|auto].
  - apply Ascii.eqb_neq in E. intros [H|H]; auto.
Qed.

Lemma replace_slash_inj s1 : forall s2,
  ~ In "206"%char (String.list_ascii_of_string s1) ->
  ~ In "206"%char (String.list_ascii_of_string s2) ->
  replace_slash s1 = replace_slash s2 -> s1 = s2.
Proof.
  induction s1 as [|c1 s1 IH]; intros [|c2 s2] H1 H2 H; simpl in *.
  - done.
  - destruct (Ascii.eqb c2 "/"); discriminate.
  - destruct (Ascii.eqb c1 "/"); discriminate.
  - destruct (Ascii.eqb c1 "/") eqn:E1; destruct (Ascii.eqb c2 "/") eqn:E2;
      simpl in H.
    + apply Ascii.eqb_eq in E1, E2. subst. f_equal.
      inversion H. apply IH; tauto.
    + inversion H; subst. tauto.
    + inversion H; subst. tauto.
    + inversion H; subst. f_equal. apply IH; tauto.
Qed.

(** The alias derived from a package name never has a path separator; and
    two names without the first byte of the replacement character get the
    same derived alias only when they are the same name. *)
Theorem derived_alias_separates_names (name1 name2 : string) :
  ~ In "/"%char (String.list_ascii_of_string (alias_ (Package_new name1 None)))
  /\ (~ In "206"%char (String.list_ascii_of_string name1) ->
      ~ In "206"%char (String.list_ascii_of_string name2) ->
      alias_ (Package_new name1 None) = alias_ (Package_new name2 None) ->
      name1 = name2).
Proof.
  simpl. split.
  - intros [H|[H|[H|H]]]; try discriminate. by apply replace_slash_no_slash in H.
  - intros H1 H2 H. inversion H. by apply replace_slash_inj.
Qed.

Lemma derived_alias_separates_names_witness :
  ~ In "206"%char (String.list_ascii_of_string "os/path")
  /\ ~ In "206"%char (String.list_ascii_of_string "os")
  /\ ~ In "/"%char (String.list_ascii_of_string
                      (alias_ (Package_new "os/path" None)))
  /\ (alias_ (Package_new "os/path" None) = alias_ (Package_new "os" None) ->
      "os/path" = "os").
Proof.
  assert (forall s, forallb (fun c => negb (Ascii.eqb c "206"))
                            (String.list_ascii_of_string s) = true ->
                    ~ In "206"%char (String.list_ascii_of_string s)) as Hdec.
  { intros s Hs Hin. rewrite forallb_forall in Hs. apply Hs in Hin.
    by rewrite Ascii.eqb_refl in Hin. }
  split; [by apply Hdec|]. split; [by apply Hdec|].
  split.
  - exact (proj1 (derived_alias_separates_names "os/path" "os")).
  - exact (proj2 (derived_alias_separates_names "os/path" "os")
                 (Hdec "os/path" eq_refl) (Hdec "os" eq_refl)).
Defined.

Lemma joined_is_not_grumpy libroot name : libroot +:+ "/" +:+ name <> "grumpy".
Proof.
  intros H.
  assert (In "/"%char (String.list_ascii_of_string (libroot +:+ "/" +:+ name)))
    as Hin.
  { clear H. induction libroot as [|c l IH]; simpl; auto. }
  rewrite H in Hin. simpl in Hin.
  repeat (destruct Hin as [Hin|Hin]; [discriminate|]). done.
Qed.

(** [add_import] never meets the special case of the runtime package: it
    returns the package stored under the library root joined with the
    name, and a first registration gets the alias derived from that path. *)
Theorem add_import_registers_joined_path
    (runtime libroot name : string) (imports : gmap string Package) :
  imports_ok imports ->
  let path := libroot +:+ "/" +:+ name in
  let '(p, imports') := add_import runtime libroot name imports in
  pkg_name p = path
  /\ imports' !! path = Some p
  /\ (imports !! path = None -> alias_ p = "π_" +:+ replace_slash path).
Proof.
  intros Hok. unfold add_import. rewrite add_native_import_eq. simpl.
  destruct (decide (libroot +:+ "/" +:+ name = "grumpy")) as [Hg|_];
    [by apply joined_is_not_grumpy in Hg|].
  destruct (imports !! _) as [p|] eqn:E.
  - split; [by apply Hok|]. split; [done|]. done.
  - split; [done|]. split; [apply lookup_insert_eq|done].
Qed.

Lemma add_import_registers_joined_path_witness :
  imports_ok ∅
  /\ let path := "grumpy/lib" +:+ "/" +:+ "os" in
     let '(p, imports') := add_import "grumpy" "grumpy/lib" "os" ∅ in
     pkg_name p = path
     /\ imports' !! path = Some p
     /\ ((∅ : gmap string Package) !! path = None ->
         alias_ p = "π_" +:+ replace_slash path).
Proof.
  assert (imports_ok ∅) as H by (intros k p Hk; by rewrite lookup_empty in Hk).
  split; [exact H|].
  exact (add_import_registers_joined_path "grumpy" "grumpy/lib" "os" ∅ H).
Defined.

(** ** The operations of a block as a whole *)

Lemma with_alloc_with_strings a s b :
  with_alloc a (with_strings s b) = with_strings s (with_alloc a b).
Proof.
  unfold with_strings. destruct b as [a0 s0|a0 p n g|a0 p n vs gen]; simpl;
    try done; by destruct (module_block_is_module p) as (am & sm & ->).
Qed.

Lemma with_alloc_twice a1 a2 b : with_alloc a2 (with_alloc a1 b) = with_alloc a2 b.
Proof. by destruct b. Qed.

Lemma with_alloc_id b : with_alloc (alloc_of b) b = b.
Proof. by destruct b. Qed.

Lemma alloc_of_with_alloc a b : alloc_of (with_alloc a b) = a.
Proof. by destruct b. Qed.

Lemma alloc_of_with_strings s b : alloc_of (with_strings s b) = alloc_of b.
Proof.
  unfold with_strings. destruct b as [a0 s0|a0 p n g|a0 p n vs gen]; simpl;
    try done; by destruct (module_block_is_module p) as (am & sm & ->).
Qed.

Lemma strings_with_alloc a b : strings (with_alloc a b) = strings b.
Proof. by destruct b. Qed.

Lemma strings_module_block b : strings (_module_block b) = strings b.
Proof.
  unfold strings. destruct (module_block_is_module b) as (am & sm & E).
  rewrite E. simpl. done.
Qed.

Lemma with_module_block_with_strings s b :
  with_module_block (with_strings s (_module_block b)) b = with_strings s b.
Proof.
  unfold with_strings. destruct (module_block_is_module b) as (am & sm & E).
  rewrite E. simpl. done.
Qed.

Lemma frame_with_strings s b : frame (with_strings s b) = frame b.
Proof. unfold frame. by rewrite with_alloc_with_strings, with_strings_twice. Qed.

Lemma frame_with_alloc a b : frame (with_alloc a b) = frame b.
Proof. unfold frame. by rewrite with_alloc_twice. Qed.

Section BlockSteps.

Variable go_str : string -> string.
Variable adjust_local_name : string -> string.

Lemma intern_eq s b :
  intern go_str s b =
  ((intern_strings go_str s (strings b)).1,
   with_strings (intern_strings go_str s (strings b)).2 b).
Proof. unfold intern. by destruct (intern_strings go_str s (strings b)). Qed.

Lemma intern_strings_grows s strs :
  strs ⊆ (intern_strings go_str s strs).2.
Proof. unfold intern_strings. destruct (_ || _); simpl; set_solver. Qed.

Lemma intern_strings_keeps_ok s strs :
  strings_ok strs -> strings_ok (intern_strings go_str s strs).2.
Proof.
  intros Hok. unfold intern_strings.
  destruct ((64 <? String.length s)%nat || non_word_search s) eqn:E;
    simpl; [done|].
  apply orb_false_iff in E as [Hlen Hw]. apply Nat.ltb_ge in Hlen.
  intros x Hx. apply elem_of_union in Hx as [Hx|Hx]; [|auto].
  apply elem_of_singleton in Hx as ->. done.
Qed.

Lemma shaped_same b w name : shaped go_str b w name b w.
Proof.
  exists (alloc_of b), (strings b), [].
  rewrite with_alloc_id, with_strings_id, app_nil_r. auto.
Qed.

Lemma shaped_write b w name new : shaped go_str b w name b (w ++ new).
Proof.
  exists (alloc_of b), (strings b), new.
  rewrite with_alloc_id, with_strings_id. auto.
Qed.

Lemma shaped_intern b w name new :
  shaped go_str b w name
         (with_strings (intern_strings go_str name (strings b)).2 b) (w ++ new).
Proof.
  exists (alloc_of b), (intern_strings go_str name (strings b)).2, new.
  rewrite with_alloc_id. auto.
Qed.

Lemma shaped_alloc_intern b w name new :
  shaped go_str b w name
         (intern go_str name
            (with_alloc (alloc_temp Object_type (alloc_of b)).2 b)).2
         (w ++ new).
Proof.
  rewrite intern_eq. simpl. rewrite strings_with_alloc.
  exists (alloc_temp Object_type (alloc_of b)).2,
         (intern_strings go_str name (strings b)).2, new.
  auto.
Qed.

Lemma resolve_global_eq b w name :
  _resolve_global go_str b w name =
  let a' := (alloc_temp Object_type (alloc_of b)).2 in
  let r := (alloc_temp Object_type (alloc_of b)).1 in
  (r, (intern go_str name (with_alloc a' b)).2,
   w ++ [CheckedCall2 r "πg.ResolveGlobal(πF, πGlobals, {})"
                      [(intern go_str name (with_alloc a' b)).1]]).
Proof.
  unfold _resolve_global. destruct (alloc_temp _ _) as [r a']. simpl.
  by destruct (intern go_str name _).
Qed.

Lemma class_resolve_eq self p gv w name :
  ClassBlock_resolve_name go_str adjust_local_name self p gv w name =
  let a' := (alloc_temp Object_type (alloc_of self)).2 in
  let r := (alloc_temp Object_type (alloc_of self)).1 in
  (Returned (GeneratedTempVar r), (intern go_str name (with_alloc a' self)).2,
   w ++ [CheckedCall2 r "πg.ResolveClass(πF, πClass, {}, πGlobals, {})"
           [if decide (name ∈ gv) then "nil"
            else class_local adjust_local_name name p;
            (intern go_str name (with_alloc a' self)).1]]).
Proof.
  unfold ClassBlock_resolve_name. destruct (alloc_temp _ _) as [r a']. simpl.
  by destruct (intern go_str name _).
Qed.

Lemma module_bind_var_eq m w name value :
  ModuleBlock_bind_var go_str m w name value =
  (Returned (), with_strings (intern_strings go_str name (strings m)).2 m,
   w ++ [CheckedCall1 "πGlobals.SetItem(πF, {}.ToObject(), {})"
                      [(intern_strings go_str name (strings m)).1; value]]).
Proof. unfold ModuleBlock_bind_var. by rewrite intern_eq. Qed.

Lemma module_del_var_eq m w name :
  ModuleBlock_del_var go_str m w name =
  (Returned (), with_strings (intern_strings go_str name (strings m)).2 m,
   w ++ [CheckedCall1 "πg.DelVar(πF, πGlobals, {})"
                      [(intern_strings go_str name (strings m)).1]]).
Proof. unfold ModuleBlock_del_var. by rewrite intern_eq. Qed.

Lemma via_module_bind_var_eq b w name value :
  via_module_block (fun m w => ModuleBlock_bind_var go_str m w name value) b w =
  (Returned (), with_strings (intern_strings go_str name (strings b)).2 b,
   w ++ [CheckedCall1 "πGlobals.SetItem(πF, {}.ToObject(), {})"
                      [(intern_strings go_str name (strings b)).1; value]]).
Proof.
  unfold via_module_block. rewrite module_bind_var_eq.
  by rewrite strings_module_block, with_module_block_with_strings.
Qed.

Lemma via_module_del_var_eq b w name :
  via_module_block (fun m w => ModuleBlock_del_var go_str m w name) b w =
  (Returned (), with_strings (intern_strings go_str name (strings b)).2 b,
   w ++ [CheckedCall1 "πg.DelVar(πF, πGlobals, {})"
                      [(intern_strings go_str name (strings b)).1]]).
Proof.
  unfold via_module_block. rewrite module_del_var_eq.
  by rewrite strings_module_block, with_module_block_with_strings.
Qed.

Lemma bind_var_shaped b w name value :
  shaped go_str b w name
         (bind_var go_str adjust_local_name b w name value).1.2
         (bind_var go_str adjust_local_name b w name value).2
  /\ alloc_of (bind_var go_str adjust_local_name b w name value).1.2
     = alloc_of b.
Proof.
  destruct b as [a s|a p n g|a p n vs gen]; simpl.
  - rewrite module_bind_var_eq. cbn [fst snd].
    split; [apply shaped_intern|apply alloc_of_with_strings].
  - unfold ClassBlock_bind_var. destruct (decide (name ∈ g)).
    + rewrite via_module_bind_var_eq. cbn [fst snd].
      split; [apply shaped_intern|apply alloc_of_with_strings].
    + rewrite intern_eq. cbn [fst snd].
      split; [apply shaped_intern|apply alloc_of_with_strings].
  - unfold FunctionBlock_bind_var. destruct (vars_get name vs) as [var|].
    + destruct (decide (type var = TYPE_GLOBAL)).
      * rewrite via_module_bind_var_eq. cbn [fst snd].
        split; [apply shaped_intern|apply alloc_of_with_strings].
      * simpl. split; [apply shaped_write|done].
    + simpl. split; [apply shaped_same|done].
Qed.

Lemma del_var_shaped b w name :
  shaped go_str b w name
         (del_var go_str adjust_local_name b w name).1.2
         (del_var go_str adjust_local_name b w name).2
  /\ alloc_of (del_var go_str adjust_local_name b w name).1.2 = alloc_of b.
Proof.
  destruct b as [a s|a p n g|a p n vs gen]; simpl.
  - rewrite module_del_var_eq. cbn [fst snd].
    split; [apply shaped_intern|apply alloc_of_with_strings].
  - unfold ClassBlock_del_var. destruct (decide (name ∈ g)).
    + rewrite via_module_del_var_eq. cbn [fst snd].
      split; [apply shaped_intern|apply alloc_of_with_strings].
    + rewrite intern_eq. cbn [fst snd].
      split; [apply shaped_intern|apply alloc_of_with_strings].
  - unfold FunctionBlock_del_var. destruct (vars_get name vs) as [var|].
    + destruct (decide (type var = TYPE_GLOBAL)).
      * rewrite via_module_del_var_eq. cbn [fst snd].
        split; [apply shaped_intern|apply alloc_of_with_strings].
      * simpl. split; [apply shaped_write|done].
    + simpl. split; [apply shaped_same|done].
Qed.

Lemma resolve_name_shaped b w name :
  shaped go_str b w name
         (resolve_name go_str adjust_local_name b w name).1.2
         (resolve_name go_str adjust_local_name b w name).2.
Proof.
  assert (forall w0,
            shaped go_str b w0 name (_resolve_global go_str b w0 name).1.2
                                    (_resolve_global go_str b w0 name).2) as Hg.
  { intros w0. rewrite resolve_global_eq. simpl. apply shaped_alloc_intern. }
  destruct b as [a s|a p n g|a p n vs gen]; simpl.
  - unfold ModuleBlock_resolve_name. specialize (Hg w).
    by destruct (_resolve_global _ _ _ _) as [[r m'] w'].
  - rewrite class_resolve_eq. simpl.
    apply (shaped_alloc_intern (ClassBlock a p n g)).
  - unfold FunctionBlock_resolve_name. specialize (Hg w).
    destruct (function_lookup name _) as [var|].
    + destruct (decide (type var = TYPE_GLOBAL)).
      * by destruct (_resolve_global _ _ _ _) as [[r m'] w'].
      * simpl. apply shaped_write.
    + by destruct (_resolve_global _ _ _ _) as [[r m'] w'].
Qed.

Lemma shaped_steps b w name b' w' :
  shaped go_str b w name b' w' -> steps_from b w b' w'.
Proof.
  intros (a' & strs' & new & -> & Hs & _ & ->). split; [|split].
  - by rewrite frame_with_strings, frame_with_alloc.
  - rewrite strings_with_strings.
    destruct Hs as [->| ->]; [done|apply intern_strings_grows].
  - by exists new.
Qed.

(** Binding, deleting or resolving a name in a block changes nothing in
    the chain of blocks but the allocator of the block itself and the
    strings of the module block, loses no interned string and only appends
    to the writer; binding and deleting leave the allocator alone as
    well. *)
Theorem block_operations_keep_the_frame
    (b : Block) (w : Writer) (name value : string) :
  let rb := bind_var go_str adjust_local_name b w name value in
  let rd := del_var go_str adjust_local_name b w name in
  let rr := resolve_name go_str adjust_local_name b w name in
  steps_from b w rb.1.2 rb.2 /\ alloc_of rb.1.2 = alloc_of b
  /\ steps_from b w rd.1.2 rd.2 /\ alloc_of rd.1.2 = alloc_of b
  /\ steps_from b w rr.1.2 rr.2.
Proof.
  simpl.
  destruct (bind_var_shaped b w name value) as [Hb Hba].
  destruct (del_var_shaped b w name) as [Hd Hda].
  pose proof (resolve_name_shaped b w name) as Hr.
  split; [eapply shaped_steps; eauto|]. split; [done|].
  split; [eapply shaped_steps; eauto|]. split; [done|].
  eapply shaped_steps; eauto.
Qed.

Lemma shaped_strings_ok b w name b' w' :
  shaped go_str b w name b' w' ->
  strings_ok (strings b) -> strings_ok (strings b').
Proof.
  intros (a' & strs' & new & -> & Hs & _ & _) Hok.
  rewrite strings_with_strings.
  destruct Hs as [->| ->]; [done|by apply intern_strings_keeps_ok].
Qed.

(** The strings interned in the module block stay identifiers of at most
    64 bytes, whatever name is bound, deleted or resolved in whatever
    block. *)
Theorem block_operations_keep_strings_ok
    (b : Block) (w : Writer) (name value : string) :
  strings_ok (strings b) ->
  strings_ok (strings (bind_var go_str adjust_local_name b w name value).1.2)
  /\ strings_ok (strings (del_var go_str adjust_local_name b w name).1.2)
  /\ strings_ok (strings (resolve_name go_str adjust_local_name b w name).1.2).
Proof.
  intros Hok.
  destruct (bind_var_shaped b w name value) as [Hb _].
  destruct (del_var_shaped b w name) as [Hd _].
  pose proof (resolve_name_shaped b w name) as Hr.
  split; [eapply shaped_strings_ok; eauto|].
  split; eapply shaped_strings_ok; eauto.
Qed.

End BlockSteps.

(** ** Resolution *)

Lemma alloc_temp_used ty a :
  (alloc_temp ty a).1 ∈ used_temps (alloc_temp ty a).2.
Proof. unfold alloc_temp. destruct (List.find _ _); simpl; set_solver. Qed.

Lemma alloc_temp_type ty a : type_ (alloc_temp ty a).1 = ty.
Proof.
  unfold alloc_temp. destruct (List.find _ _) as [v|] eqn:E; simpl; [|done].
  by apply alloc_temp_found in E as [_ Hty].
Qed.

Section Resolution.

Variable go_str : string -> string.
Variable adjust_local_name : string -> string.

Lemma resolve_global_temp b w name r b' w' :
  _resolve_global go_str b w name = (r, b', w') ->
  r = (alloc_temp Object_type (alloc_of b)).1
  /\ alloc_of b' = (alloc_temp Object_type (alloc_of b)).2.
Proof.
  rewrite resolve_global_eq. cbn zeta. intros H. inversion H; subst.
  split; [done|]. rewrite intern_eq. cbn [fst snd].
  rewrite alloc_of_with_strings. apply alloc_of_with_alloc.
Qed.

Lemma alloc_temp_facts a :
  temps_ok a ->
  let r := (alloc_temp Object_type a).1 in
  let a' := (alloc_temp Object_type a).2 in
  r ∈ used_temps a' /\ (r ∉ used_temps a) /\ type_ r = Object_type
  /\ temps_ok a'.
Proof.
  intros Hok. simpl. split; [apply alloc_temp_used|]. split; [|split].
  - eapply alloc_temp_not_used; [done|]. apply surjective_pairing.
  - apply alloc_temp_type.
  - eapply temps_ok_alloc; [done|]. apply surjective_pairing.
Qed.

(** When [resolve_name] returns a temporary, the temporary has the object
    type, was not in use in the block before the call and is in use after
    it, so that the block hands it out to nobody else until it is freed;
    and the free and the used temporaries of the block still do not
    overlap. *)
Theorem resolve_name_takes_a_fresh_temp
    (b : Block) (w : Writer) (name : string)
    (r : TempVar) (b' : Block) (w' : Writer) :
  temps_ok (alloc_of b) ->
  resolve_name go_str adjust_local_name b w name
    = (Returned (GeneratedTempVar r), b', w') ->
  r ∈ used_temps (alloc_of b') /\ (r ∉ used_temps (alloc_of b))
  /\ type_ r = Object_type /\ temps_ok (alloc_of b').
Proof.
  intros Hok H.
  cut (r = (alloc_temp Object_type (alloc_of b)).1
       /\ alloc_of b' = (alloc_temp Object_type (alloc_of b)).2).
  { intros [-> ->]. by apply alloc_temp_facts. }
  destruct b as [a s|a p n g|a p n vs gen]; simpl in H.
  - unfold ModuleBlock_resolve_name in H.
    destruct (_resolve_global _ _ _ _) as [[r0 m'] w0] eqn:E.
    inversion H; subst. by apply resolve_global_temp in E.
  - rewrite class_resolve_eq in H. cbn zeta in H. inversion H; subst.
    split; [done|]. rewrite intern_eq. cbn [fst snd].
    rewrite alloc_of_with_strings. reflexivity.
  - unfold FunctionBlock_resolve_name in H.
    destruct (function_lookup name _) as [var|].
    + destruct (decide (type var = TYPE_GLOBAL)); [|discriminate].
      destruct (_resolve_global _ _ _ _) as [[r0 m'] w0] eqn:E.
      inversion H; subst. by apply resolve_global_temp in E.
    + destruct (_resolve_global _ _ _ _) as [[r0 m'] w0] eqn:E.
      inversion H; subst. by apply resolve_global_temp in E.
Qed.

(** A function block resolves a name by the nearest function block, itself
    first, whose variables have the name: when that entry is not global it
    writes the check that the local is bound and returns the local, taking
    no temporary and interning nothing; when it is global, or when no
    function block has the name, it writes the lookup of a global with a
    temporary of its own. *)
Theorem function_resolve_name_cases
    (a : Alloc) (p : Block) (n : string) (vs : Vars) (gen : bool)
    (w : Writer) (name : string) :
  let self := FunctionBlock a p n vs gen in
  let global :=
    let '(r, self', w') := _resolve_global go_str self w name in
    (Returned (GeneratedTempVar r), self', w') in
  resolve_name go_str adjust_local_name self w name =
  match nearest_function_entry name self with
  | Some var =>
      if decide (type var = TYPE_GLOBAL) then global
      else (Returned (GeneratedLocalVar name), self,
            w ++ [CheckedCall1 "πg.CheckLocal(πF, {}, {})"
                               [adjust_local_name name; go_str name]])
  | None => global
  end.
Proof.
  simpl. unfold FunctionBlock_resolve_name.
  by rewrite function_lookup_nearest.
Qed.

End Resolution.

Lemma sample_function_temps_ok : temps_ok (alloc_of sample_class_global).
Proof. apply reachable_temps_ok, reachable_init. Defined.

Lemma resolve_name_takes_a_fresh_temp_witness :
  temps_ok (alloc_of sample_class_global)
  /\ resolve_name sample_go_str sample_adjust sample_class_global [] "x"
     = (Returned (GeneratedTempVar (mkTemp "πTemp001" Object_type)),
        (resolve_name sample_go_str sample_adjust sample_class_global [] "x").1.2,
        (resolve_name sample_go_str sample_adjust sample_class_global [] "x").2)
  /\ mkTemp "πTemp001" Object_type
     ∈ used_temps (alloc_of (resolve_name sample_go_str sample_adjust
                                          sample_class_global [] "x").1.2)
  /\ (mkTemp "πTemp001" Object_type
      ∉ used_temps (alloc_of sample_class_global))
  /\ type_ (mkTemp "πTemp001" Object_type) = Object_type
  /\ temps_ok (alloc_of (resolve_name sample_go_str sample_adjust
                                      sample_class_global [] "x").1.2).
Proof.
  assert (resolve_name sample_go_str sample_adjust sample_class_global [] "x"
     = (Returned (GeneratedTempVar (mkTemp "πTemp001" Object_type)),
        (resolve_name sample_go_str sample_adjust sample_class_global [] "x").1.2,
        (resolve_name sample_go_str sample_adjust sample_class_global [] "x").2))
    as H by reflexivity.
  split; [exact sample_function_temps_ok|]. split; [exact H|].
  exact (resolve_name_takes_a_fresh_temp sample_go_str sample_adjust
           sample_class_global [] "x" _ _ _ sample_function_temps_ok H).
Defined.

Lemma sample_strings_ok : strings_ok (strings sample_class_global).
Proof. intros s Hs. by apply elem_of_empty in Hs. Defined.

Lemma block_operations_keep_strings_ok_witness :
  strings_ok (strings sample_class_global)
  /\ strings_ok (strings (bind_var sample_go_str sample_adjust
                                   sample_class_global [] "x" "v").1.2)
  /\ strings_ok (strings (del_var sample_go_str sample_adjust
                                  sample_class_global [] "x").1.2)
  /\ strings_ok (strings (resolve_name sample_go_str sample_adjust
                                       sample_class_global [] "x").1.2).
Proof.
  split; [exact sample_strings_ok|].
  exact (block_operations_keep_strings_ok sample_go_str sample_adjust
           sample_class_global [] "x" "v" sample_strings_ok).
Defined.

(** ** More on the visitor *)

Lemma arg_ids_state args st : (arg_ids args st).2 = st.
Proof.
  induction args as [|a args IH]; simpl; [done|].
  unfold vbind. destruct a; simpl; try done.
  destruct (arg_ids args st) as [[ids|e] st1]; simpl in *; done.
Qed.

Lemma register_params_step i name args st :
  register_params i (name :: args) st =
  match vars_get name (vars st) with
  | Some _ => (Raised (duplicate_argument name), st)
  | None =>
      register_params (S i) args
        (mkVisitor (vars st ++ [(name, mkVar name TYPE_PARAM (Some i))])
                   (is_generator st))
  end.
Proof.
  simpl. unfold vbind at 1, get_vars. simpl.
  destruct (vars_get name (vars st)) eqn:E; [done|].
  unfold vbind, set_var. by rewrite vars_set_absent.
Qed.

(** *** The generator flag *)

Lemma tracks_fixed {A : Type} (m : V A) :
  (forall st, is_generator (m st).2 = is_generator st) -> tracks m false.
Proof.
  intros H st r st' E. specialize (H st). rewrite E in H. simpl in H.
  rewrite H. split; [done|]. split; [auto|]. by destruct r.
Qed.

Lemma tracks_vret {A : Type} (a : A) : tracks (vret a) false.
Proof. by apply tracks_fixed. Qed.

Lemma tracks_vraise {A : Type} (e : exn) y : tracks (@vraise A e) y.
Proof. intros st r st' H. inversion H; subst. auto. Qed.

Lemma tracks_vbind {A B : Type} (m : V A) (k : A -> V B) y1 y2 :
  tracks m y1 -> (forall a, tracks (k a) y2) -> tracks (vbind m k) (y1 || y2).
Proof.
  intros Hm Hk st r st' H. unfold vbind in H.
  destruct (m st) as [[a|e] st1] eqn:E.
  - destruct (Hm _ _ _ E) as (H1 & H2 & H3).
    destruct (Hk a _ _ _ H) as (K1 & K2 & K3).
    split; [auto|]. split.
    + intros Hg. rewrite orb_true_iff.
      destruct (K2 Hg) as [Hg1|]; [|auto]. destruct (H2 Hg1); auto.
    + destruct r; [|done]. intros Hy. apply orb_true_iff in Hy as [Hy|Hy]; auto.
  - inversion H; subst. destruct (Hm _ _ _ E) as (H1 & H2 & _).
    split; [done|]. split; [|done].
    intros Hg. rewrite orb_true_iff. destruct (H2 Hg); auto.
Qed.

Lemma tracks_vbind_false {A B : Type} (m : V A) (k : A -> V B) y :
  tracks m false -> (forall a, tracks (k a) y) -> tracks (vbind m k) y.
Proof. apply (tracks_vbind m k false y). Qed.

Lemma tracks_for_each {A : Type} (f : A -> V unit) (g : A -> bool) l :
  Forall (fun x => tracks (f x) (g x)) l ->
  tracks (for_each f l) (existsb g l).
Proof.
  induction 1 as [|x l Hx Hl IH]; simpl; [apply tracks_vret|].
  apply tracks_vbind; auto.
Qed.

Lemma tracks_for_each_false {A : Type} (f : A -> V unit) l :
  (forall x, tracks (f x) false) -> tracks (for_each f l) false.
Proof.
  intros H. induction l as [|x l IH]; simpl; [apply tracks_vret|].
  apply tracks_vbind_false; auto.
Qed.

Lemma tracks_on_option (f : node -> V unit) (g : node -> bool) o :
  on_option (fun n => tracks (f n) (g n)) o ->
  tracks (for_option f o) (from_option g false o).
Proof. destruct o as [x|]; simpl; [auto|]. intros _. apply tracks_vret. Qed.

Lemma tracks_for_option_false {A : Type} (f : A -> V unit) o :
  (forall x, tracks (f x) false) -> tracks (for_option f o) false.
Proof. destruct o as [x|]; simpl; [auto|]. intros _. apply tracks_vret. Qed.

Lemma tracks_register_local x : tracks (_register_local x) false.
Proof.
  apply tracks_fixed. intros st. rewrite register_local_eq.
  by destruct (vars_get x (vars st)).
Qed.

Lemma tracks_register_global x : tracks (_register_global x) false.
Proof.
  apply tracks_fixed. intros st. rewrite register_global_eq.
  destruct (vars_get x (vars st)) as [var|]; [|done]. by destruct (type var).
Qed.

Lemma existsb_never {A : Type} (l : list A) : existsb (fun _ => false) l = false.
Proof. by induction l. Qed.

Lemma tracks_assign_target t : tracks (_assign_target t) false.
Proof.
  induction t using node_nested_ind; simpl; try apply tracks_vret.
  - apply tracks_register_local.
  - pose proof (tracks_for_each _ _ _ H) as Ht.
    by rewrite existsb_never in Ht.
  - pose proof (tracks_for_each _ _ _ H) as Ht.
    by rewrite existsb_never in Ht.
Qed.

Lemma tracks_handler_name nm :
  tracks (id <- node_id nm ;; _register_local id) false.
Proof.
  apply tracks_vbind_false; [|intros; apply tracks_register_local].
  destruct nm; simpl; first [apply tracks_vret | apply tracks_vraise].
Qed.

Lemma tracks_set_is_generator : tracks set_is_generator true.
Proof. intros st r st' H. inversion H; subst. simpl. auto. Qed.

Create HintDb tracks.

#[local] Hint Resolve tracks_vret tracks_vraise tracks_for_each
  tracks_for_each_false tracks_on_option tracks_for_option_false
  tracks_register_local tracks_register_global tracks_assign_target
  tracks_handler_name tracks_set_is_generator : tracks.

Lemma tracks_visit n : tracks (visit FunctionBlockVisitor n) (yields n).
Proof.
  induction n using node_nested_ind; simpl;
    repeat first [ apply tracks_vbind_false; [by auto with tracks|intros _]
                 | apply tracks_vbind; [|intros _] ];
    auto with tracks.
Qed.

Lemma tracks_init n : tracks (FunctionBlockVisitor_init n) false.
Proof.
  apply tracks_fixed. intros st. destruct n; simpl; try done.
  unfold vbind. pose proof (arg_ids_state args st) as Ha.
  destruct (arg_ids args st) as [[ids|e] st0]; simpl in Ha; subst; [|done].
  generalize (ids ++ opt_name vararg ++ opt_name kwarg) 0.
  intros names. revert st. induction names as [|x names IH]; intros st i.
  - done.
  - rewrite register_params_step. destruct (vars_get x (vars st)); [done|].
    by rewrite IH.
Qed.

(** When the classification of a function returns, the function is marked
    as a generator exactly when the walk of its body meets a [yield]: one
    in a statement of the body or in a block nested in it, but not one in
    a nested function or class, nor one in the target of an assignment. *)
Theorem generator_iff_body_yields (n : node) (st : Visitor) :
  classify_function n = (Returned (), st) ->
  is_generator st = existsb yields (body_of n).
Proof.
  intros H. destruct n; try discriminate. simpl in H |- *.
  assert (tracks (FunctionBlockVisitor_init
                    (FunctionDef name args vararg kwarg body) ;;
                  for_each (visit FunctionBlockVisitor) body)
                 (existsb yields body)) as Ht.
  { apply tracks_vbind_false; [apply tracks_init|intros _].
    apply tracks_for_each, Forall_forall. intros; apply tracks_visit. }
  destruct (Ht _ _ _ H) as (_ & H2 & H3). simpl in *.
  destruct (existsb yields body); [auto|].
  destruct (is_generator st); [|done]. by destruct H2.
Qed.

Lemma generator_iff_body_yields_witness :
  classify_function sample_def =
  (Returned (),
   mkVisitor [("a", mkVar "a" TYPE_PARAM (Some 0));
              ("total", mkVar "total" TYPE_GLOBAL None);
              ("count", mkVar "count" TYPE_LOCAL None);
              ("inner", mkVar "inner" TYPE_LOCAL None)] false)
  /\ false = existsb yields (body_of sample_def).
Proof.
  split; [exact sample_def_classified|].
  exact (generator_iff_body_yields sample_def _ sample_def_classified).
Defined.

(** *** Properties the visitor keeps *)

Section Keeps.

Variable I : Visitor -> Prop.

Lemma keeps_vret {A : Type} (a : A) : keeps I (vret a).
Proof. intros st r st' H. by inversion H; subst. Qed.

Lemma keeps_vraise {A : Type} (e : exn) : keeps I (@vraise A e).
Proof. intros st r st' H. by inversion H; subst. Qed.

Lemma keeps_vbind {A B : Type} (m : V A) (k : A -> V B) :
  keeps I m -> (forall a, keeps I (k a)) -> keeps I (vbind m k).
Proof.
  intros Hm Hk st r st' H HI. unfold vbind in H.
  destruct (m st) as [[a|e] st1] eqn:E.
  - eapply Hk; [exact H|]. eapply Hm; eauto.
  - inversion H; subst. eapply Hm; eauto.
Qed.

Lemma keeps_for_each {A : Type} (f : A -> V unit) l :
  Forall (fun x => keeps I (f x)) l -> keeps I (for_each f l).
Proof.
  induction 1 as [|x l Hx Hl IH]; simpl; [apply keeps_vret|].
  apply keeps_vbind; auto.
Qed.

Lemma keeps_for_each_all {A : Type} (f : A -> V unit) l :
  (forall x, keeps I (f x)) -> keeps I (for_each f l).
Proof. intros H. apply keeps_for_each, Forall_forall. auto. Qed.

Lemma keeps_on_option (f : node -> V unit) o :
  on_option (fun n => keeps I (f n)) o -> keeps I (for_option f o).
Proof. destruct o as [x|]; simpl; [auto|]. intros _. apply keeps_vret. Qed.

Lemma keeps_for_option {A : Type} (f : A -> V unit) o :
  (forall x, keeps I (f x)) -> keeps I (for_option f o).
Proof. destruct o as [x|]; simpl; [auto|]. intros _. apply keeps_vret. Qed.

(** The property survives a new local or global entry at the end. *)
Hypothesis I_add : forall st x ty,
  I st -> vars_get x (vars st) = None -> ty <> TYPE_PARAM ->
  I (mkVisitor (vars st ++ [(x, mkVar x ty None)]) (is_generator st)).

Lemma keeps_register_local x : keeps I (_register_local x).
Proof.
  intros st r st' H HI. rewrite register_local_eq in H.
  destruct (vars_get x (vars st)) eqn:E; inversion H; subst; [done|].
  by apply I_add.
Qed.

Lemma keeps_register_global x : keeps I (_register_global x).
Proof.
  intros st r st' H HI. rewrite register_global_eq in H.
  destruct (vars_get x (vars st)) as [var|] eqn:E.
  - by destruct (type var); inversion H; subst.
  - inversion H; subst. by apply I_add.
Qed.

Lemma keeps_assign_target t : keeps I (_assign_target t).
Proof.
  induction t using node_nested_ind; simpl;
    auto using keeps_vret, keeps_register_local, keeps_for_each.
Qed.

Lemma keeps_handler_name nm :
  keeps I (id <- node_id nm ;; _register_local id).
Proof.
  apply keeps_vbind; [|intros; apply keeps_register_local].
  destruct nm; simpl; first [apply keeps_vret | apply keeps_vraise].
Qed.

Lemma keeps_visit cls n :
  (cls = FunctionBlockVisitor ->
   forall st, I st -> I (mkVisitor (vars st) true)) ->
  keeps I (visit cls n).
Proof.
  intros Hgen.
  induction n using node_nested_ind; simpl;
    repeat (apply keeps_vbind; [|intros _]);
    auto using keeps_vret, keeps_register_local, keeps_register_global,
               keeps_assign_target, keeps_handler_name, keeps_for_each,
               keeps_for_each_all, keeps_on_option, keeps_for_option.
  destruct cls; [by apply keeps_on_option|].
  intros st r st' E HI. inversion E; subst. by apply Hgen.
Qed.

End Keeps.

(** The visitor of a class body has no method for [yield]: visiting any
    node leaves its generator flag as it was. *)
Theorem class_visitor_never_marks_generator (n : node) (st : Visitor) :
  is_generator (visit BlockVisitor n st).2 = is_generator st.
Proof.
  destruct (visit BlockVisitor n st) as [r st'] eqn:E. simpl.
  apply (keeps_visit (fun s => is_generator s = is_generator st)
                     ltac:(done) BlockVisitor n ltac:(discriminate) _ _ _ E).
  done.
Qed.

Lemma entries_ok_add st x ty :
  Forall entry_ok (vars st) -> vars_get x (vars st) = None ->
  ty <> TYPE_PARAM ->
  Forall entry_ok
    (vars (mkVisitor (vars st ++ [(x, mkVar x ty None)]) (is_generator st))).
Proof.
  intros Hok _ Hty. simpl. apply Forall_app. split; [done|].
  apply Forall_singleton. split; [done|]. simpl. split; [done|].
  by intros [? ?].
Qed.

Lemma entries_ok_init n st r st' :
  FunctionBlockVisitor_init n st = (r, st') ->
  Forall entry_ok (vars st) -> Forall entry_ok (vars st').
Proof.
  destruct n; simpl; try (by intros H; inversion H; subst).
  unfold vbind. pose proof (arg_ids_state args st) as Ha.
  destruct (arg_ids args st) as [[ids|e] st0]; simpl in Ha; subst;
    [|by intros H; inversion H; subst].
  generalize (ids ++ opt_name vararg ++ opt_name kwarg) 0.
  intros names. revert st. induction names as [|x names IH]; intros st i H Hok.
  - by inversion H; subst.
  - rewrite register_params_step in H.
    destruct (vars_get x (vars st)); [by inversion H; subst|].
    apply IH in H; [done|]. simpl. apply Forall_app. split; [done|].
    apply Forall_singleton. split; [done|]. simpl. split; [eauto|done].
Qed.

(** *** Names declared global *)

Lemma vars_get_elem x v vs : vars_get x vs = Some v -> (x, v) ∈ vs.
Proof.
  induction vs as [|[k u] vs IH]; simpl; [done|].
  destruct (decide (k = x)) as [->|].
  - intros H. inversion H; subst. left.
  - intros H. right. auto.
Qed.

Lemma declares_vret {A : Type} (a : A) : declares (vret a) [].
Proof.
  intros st r st' H. inversion H; subst. split.
  - exists []. rewrite app_nil_r. split; [done|].
    intros k v Hk. by apply elem_of_nil in Hk.
  - intros x Hx. by apply elem_of_nil in Hx.
Qed.

Lemma declares_vraise {A : Type} (e : exn) names : declares (@vraise A e) names.
Proof.
  intros st r st' H. inversion H; subst. split; [|done].
  exists []. rewrite app_nil_r. split; [done|].
  intros k v Hk. by apply elem_of_nil in Hk.
Qed.

Lemma declares_vbind {A B : Type} (m : V A) (k : A -> V B) n1 n2 :
  declares m n1 -> (forall a, declares (k a) n2) ->
  declares (vbind m k) (n1 ++ n2).
Proof.
  intros Hm Hk st r st' H. unfold vbind in H.
  destruct (m st) as [[a|e] st1] eqn:E.
  - destruct (Hm _ _ _ E) as ((e1 & H1 & G1) & R1).
    destruct (Hk a _ _ _ H) as ((e2 & H2 & G2) & R2).
    split.
    + exists (e1 ++ e2). split; [by rewrite H2, H1, app_assoc|].
      intros x v Hx Hg. rewrite elem_of_app.
      apply elem_of_app in Hx as [Hx|Hx]; eauto.
    + destruct r; [|done]. intros x Hx.
      apply elem_of_app in Hx as [Hx|Hx]; [|auto].
      destruct (R1 x Hx) as (v & Hv & Hg). exists v. split; [|done].
      rewrite H2. by apply vars_get_app.
  - inversion H; subst. destruct (Hm _ _ _ E) as ((e1 & H1 & G1) & _).
    split; [|done]. exists e1. split; [done|].
    intros x v Hx Hg. rewrite elem_of_app. eauto.
Qed.

Lemma declares_vbind_nil {A B : Type} (m : V A) (k : A -> V B) names :
  declares m [] -> (forall a, declares (k a) names) ->
  declares (vbind m k) names.
Proof. apply (declares_vbind m k [] names). Qed.

Lemma declares_for_each {A : Type} (f : A -> V unit) (g : A -> list string) l :
  Forall (fun x => declares (f x) (g x)) l ->
  declares (for_each f l) (flat_map g l).
Proof.
  induction 1 as [|x l Hx Hl IH]; simpl; [apply declares_vret|].
  apply declares_vbind; auto.
Qed.

Lemma declares_for_each_nil {A : Type} (f : A -> V unit) l :
  (forall x, declares (f x) []) -> declares (for_each f l) [].
Proof.
  intros H. induction l as [|x l IH]; simpl; [apply declares_vret|].
  apply declares_vbind_nil; auto.
Qed.

Lemma declares_on_option (f : node -> V unit) (g : node -> list string) o :
  on_option (fun n => declares (f n) (g n)) o ->
  declares (for_option f o) (option_names g o).
Proof. destruct o as [x|]; simpl; [auto|]. intros _. apply declares_vret. Qed.

Lemma declares_for_option_nil {A : Type} (f : A -> V unit) o :
  (forall x, declares (f x) []) -> declares (for_option f o) [].
Proof. destruct o as [x|]; simpl; [auto|]. intros _. apply declares_vret. Qed.

Lemma declares_register_local x : declares (_register_local x) [].
Proof.
  intros st r st' H. rewrite register_local_eq in H.
  destruct (vars_get x (vars st)) eqn:E; [exact (declares_vret () _ _ _ H)|].
  inversion H; subst.
  - split.
    + eexists. split; [done|]. intros k v Hk Hg.
      apply list_elem_of_singleton in Hk. inversion Hk; subst. done.
    + intros y Hy. by apply elem_of_nil in Hy.
Qed.

Lemma vars_get_last x v vs :
  vars_get x vs = None -> vars_get x (vs ++ [(x, v)]) = Some v.
Proof.
  induction vs as [|[k u] vs IH]; simpl.
  - intros _. by destruct (decide (x = x)).
  - destruct (decide (k = x)); [done|auto].
Qed.

Lemma declares_register_global x : declares (_register_global x) [x].
Proof.
  intros st r st' H. rewrite register_global_eq in H.
  destruct (vars_get x (vars st)) as [var|] eqn:E.
  - destruct (type var) eqn:Ety; inversion H; subst;
      (split; [exists []; rewrite app_nil_r; split; [done|];
               intros k v Hk; by apply elem_of_nil in Hk|]); try done.
    intros y Hy. apply list_elem_of_singleton in Hy as ->. eauto.
  - inversion H; subst. split.
    + eexists. split; [done|]. intros k v Hk _.
      apply list_elem_of_singleton in Hk. inversion Hk; subst. left.
    + intros y Hy. apply list_elem_of_singleton in Hy as ->.
      eexists. split; [by apply vars_get_last|done].
Qed.

Lemma flat_map_never {A B : Type} (l : list A) :
  flat_map (fun _ => @nil B) l = [].
Proof. by induction l. Qed.

Lemma declares_assign_target t : declares (_assign_target t) [].
Proof.
  induction t using node_nested_ind; simpl; try apply declares_vret.
  - apply declares_register_local.
  - pose proof (declares_for_each _ _ _ H) as Ht.
    by rewrite flat_map_never in Ht.
  - pose proof (declares_for_each _ _ _ H) as Ht.
    by rewrite flat_map_never in Ht.
Qed.

Lemma declares_handler_name nm :
  declares (id <- node_id nm ;; _register_local id) [].
Proof.
  apply declares_vbind_nil; [|intros; apply declares_register_local].
  destruct nm; simpl; first [apply declares_vret | apply declares_vraise].
Qed.

Lemma declares_set_is_generator : declares set_is_generator [].
Proof.
  intros st r st' H. inversion H; subst. split.
  - exists []. simpl. rewrite app_nil_r. split; [done|].
    intros k v Hk. by apply elem_of_nil in Hk.
  - intros x Hx. by apply elem_of_nil in Hx.
Qed.

Create HintDb declares.

#[local] Hint Resolve declares_vret declares_vraise declares_for_each
  declares_for_each_nil declares_on_option declares_for_option_nil
  declares_register_local declares_register_global declares_assign_target
  declares_handler_name declares_set_is_generator : declares.

Lemma declares_visit cls n : declares (visit cls n) (global_names cls n).
Proof.
  induction n using node_nested_ind; simpl;
    repeat first [ apply declares_vbind_nil; [by auto with declares|intros _]
                 | apply declares_vbind; [|intros _] ];
    auto with declares.
  - pose proof (declares_for_each _register_global (fun a => [a]) names) as Hn.
    rewrite flat_map_single, map_id in Hn.
    apply Hn, Forall_forall. auto with declares.
  - destruct cls; auto with declares.
Qed.

Lemma declares_init n : declares (FunctionBlockVisitor_init n) [].
Proof.
  destruct n; simpl; try apply declares_vraise.
  intros st r st'. unfold vbind. pose proof (arg_ids_state args st) as Ha.
  destruct (arg_ids args st) as [[ids|e] st0]; simpl in Ha; subst;
    [|exact (declares_vraise e [] _ _ _)].
  generalize (ids ++ opt_name vararg ++ opt_name kwarg) 0.
  intros names. revert st. induction names as [|x names IH]; intros st i H.
  - exact (declares_vret () _ _ _ H).
  - rewrite register_params_step in H.
    destruct (vars_get x (vars st)).
    + exact (declares_vraise (duplicate_argument x) [] _ _ _ H).
    + apply IH in H as ((ext & Hext & Hg) & Hr). simpl in Hext. split.
      * exists ((x, mkVar x TYPE_PARAM (Some i)) :: ext).
        split; [by rewrite Hext, <- app_assoc|].
        intros k v Hk Hty. apply elem_of_cons in Hk as [Hk|Hk]; [|eauto].
        inversion Hk; subst. done.
      * destruct r; [|done]. intros y Hy. by apply elem_of_nil in Hy.
Qed.

(** When the classification of a function returns, the names whose kind
    is global are exactly the names that the [global] statements of the
    body declare. *)
Theorem global_iff_declared (n : node) (st : Visitor) :
  classify_function n = (Returned (), st) ->
  forall x,
    (exists v, vars_get x (vars st) = Some v /\ type v = TYPE_GLOBAL)
    <-> x ∈ flat_map (global_names FunctionBlockVisitor) (body_of n).
Proof.
  intros H. destruct n; try discriminate. simpl in H |- *.
  assert (declares (FunctionBlockVisitor_init
                      (FunctionDef name args vararg kwarg body) ;;
                    for_each (visit FunctionBlockVisitor) body)
                   (flat_map (global_names FunctionBlockVisitor) body)) as Hd.
  { apply declares_vbind_nil; [apply declares_init|intros _].
    apply declares_for_each, Forall_forall. intros; apply declares_visit. }
  destruct (Hd _ _ _ H) as ((ext & Hext & Hg) & Hr). simpl in Hext.
  intros x. split; [|apply Hr].
  intros (v & Hv & Hty). rewrite Hext in Hv.
  apply vars_get_elem in Hv. eauto.
Qed.

Lemma global_iff_declared_witness :
  classify_function sample_def =
  (Returned (),
   mkVisitor [("a", mkVar "a" TYPE_PARAM (Some 0));
              ("total", mkVar "total" TYPE_GLOBAL None);
              ("count", mkVar "count" TYPE_LOCAL None);
              ("inner", mkVar "inner" TYPE_LOCAL None)] false)
  /\ forall x,
       (exists v,
          vars_get x [("a", mkVar "a" TYPE_PARAM (Some 0));
                      ("total", mkVar "total" TYPE_GLOBAL None);
                      ("count", mkVar "count" TYPE_LOCAL None);
                      ("inner", mkVar "inner" TYPE_LOCAL None)] = Some v
          /\ type v = TYPE_GLOBAL)
       <-> x ∈ flat_map (global_names FunctionBlockVisitor) (body_of sample_def).
Proof.
  split; [exact sample_def_classified|].
  exact (global_iff_declared sample_def _ sample_def_classified).
Defined.

Lemma register_globals_raise x v names : forall st,
  vars_get x (vars st) = Some v -> type v <> TYPE_GLOBAL -> x ∈ names ->
  exists e st', for_each _register_global names st = (Raised e, st').
Proof.
  induction names as [|y names IH]; intros st Hv Hty Hx.
  - by apply elem_of_nil in Hx.
  - simpl. unfold vbind.
    destruct (_register_global y st) as [[[]|e] st1] eqn:E; [|eauto].
    destruct (decide (y = x)) as [->|Hne].
    + rewrite register_global_eq, Hv in E. destruct (type v); by inversion E.
    + apply elem_of_cons in Hx as [->|Hx]; [done|].
      destruct (visits_register_global y _ _ _ E) as ([ext Hext] & _).
      apply (IH st1); [|done|done]. rewrite Hext. by apply vars_get_app.
Qed.

(** Once a name is registered as a local or as a parameter, no body that
    declares it global in one of its statements can be classified: the
    walk raises, at that statement if not before. *)
Theorem global_after_binding_always_fails
    (cls : visitor_class) (x : string) (v : Var) (st : Visitor)
    (pre post : list node) (names : list string) :
  vars_get x (vars st) = Some v -> type v <> TYPE_GLOBAL -> x ∈ names ->
  exists e st',
    for_each (visit cls) (pre ++ Global names :: post) st = (Raised e, st').
Proof.
  intros Hv Hty Hx. rewrite for_each_app.
  destruct (for_each (visit cls) pre st) as [[[]|e] st1] eqn:E; [|eauto].
  destruct (visits_body _ _ _ _ _ E) as ([ext Hext] & _).
  assert (vars_get x (vars st1) = Some v) as Hv1
    by (rewrite Hext; by apply vars_get_app).
  destruct (register_globals_raise x v names st1 Hv1 Hty Hx) as (e & st' & Hr).
  exists e, st'. simpl. unfold vbind. by rewrite Hr.
Qed.

Lemma global_after_binding_always_fails_witness :
  vars_get "x" [("x", mkVar "x" TYPE_LOCAL None)]
    = Some (mkVar "x" TYPE_LOCAL None)
  /\ TYPE_LOCAL <> TYPE_GLOBAL
  /\ "x" ∈ ["y"; "x"]
  /\ exists e st',
       for_each (visit FunctionBlockVisitor)
                ([Assign [Name "z"] (Name "x")] ++ Global ["y"; "x"] :: [])
                (mkVisitor [("x", mkVar "x" TYPE_LOCAL None)] false)
       = (Raised e, st').
Proof.
  assert ("x" ∈ ["y"; "x"]) as Hin by (right; left).
  split; [reflexivity|]. split; [discriminate|]. split; [exact Hin|].
  exact (global_after_binding_always_fails
           FunctionBlockVisitor "x" (mkVar "x" TYPE_LOCAL None)
           (mkVisitor [("x", mkVar "x" TYPE_LOCAL None)] false)
           [Assign [Name "z"] (Name "x")] [] ["y"; "x"]
           eq_refl ltac:(discriminate) Hin).
Defined.

(** ** Names declared global in a class, and initial values *)

Section ClassGlobals.

Variable go_str : string -> string.
Variable adjust_local_name : string -> string.

Lemma module_block_twice b : _module_block (_module_block b) = _module_block b.
Proof. by destruct (module_block_is_module b) as (am & sm & ->). Qed.

Lemma bind_var_module_block b w name value :
  bind_var go_str adjust_local_name (_module_block b) w name value =
  (Returned (),
   with_strings (intern_strings go_str name (strings b)).2 (_module_block b),
   w ++ [CheckedCall1 "πGlobals.SetItem(πF, {}.ToObject(), {})"
                      [(intern_strings go_str name (strings b)).1; value]]).
Proof.
  rewrite <- (strings_module_block b).
  destruct (module_block_is_module b) as (am & sm & ->). simpl.
  apply module_bind_var_eq.
Qed.

Lemma del_var_module_block b w name :
  del_var go_str adjust_local_name (_module_block b) w name =
  (Returned (),
   with_strings (intern_strings go_str name (strings b)).2 (_module_block b),
   w ++ [CheckedCall1 "πg.DelVar(πF, πGlobals, {})"
                      [(intern_strings go_str name (strings b)).1]]).
Proof.
  rewrite <- (strings_module_block b).
  destruct (module_block_is_module b) as (am & sm & ->). simpl.
  apply module_del_var_eq.
Qed.

(** For a name that the body of a class declares global, binding and
    deleting in the class block write what the module block itself writes
    for that name and leave the same interned strings: the name lives in
    the namespace of the module, not in that of the class. *)
Theorem class_global_names_go_to_the_module
    (a : Alloc) (p : Block) (n : string) (gv : gset string)
    (w : Writer) (name value : string) :
  name ∈ gv ->
  let self := ClassBlock a p n gv in
  let cb := bind_var go_str adjust_local_name self w name value in
  let mb := bind_var go_str adjust_local_name (_module_block self) w name value in
  let cd := del_var go_str adjust_local_name self w name in
  let md := del_var go_str adjust_local_name (_module_block self) w name in
  cb.2 = mb.2 /\ strings cb.1.2 = strings mb.1.2
  /\ cd.2 = md.2 /\ strings cd.1.2 = strings md.1.2.
Proof.
  intros Hg. cbn zeta.
  rewrite bind_var_module_block, del_var_module_block.
  cbn [bind_var del_var]. unfold ClassBlock_bind_var, ClassBlock_del_var.
  destruct (decide (name ∈ gv)); [|done].
  rewrite via_module_bind_var_eq, via_module_del_var_eq. cbn [fst snd].
  by rewrite !strings_with_strings.
Qed.

End ClassGlobals.

Lemma class_global_names_go_to_the_module_witness :
  "x" ∈ ({[ "x" ]} : gset string)
  /\ let self := sample_class_global in
     let cb := bind_var sample_go_str sample_adjust self [] "x" "v" in
     let mb := bind_var sample_go_str sample_adjust (_module_block self)
                        [] "x" "v" in
     let cd := del_var sample_go_str sample_adjust self [] "x" in
     let md := del_var sample_go_str sample_adjust (_module_block self) [] "x" in
     cb.2 = mb.2 /\ strings cb.1.2 = strings mb.1.2
     /\ cd.2 = md.2 /\ strings cd.1.2 = strings md.1.2.
Proof.
  split; [by apply elem_of_singleton|].
  exact (class_global_names_go_to_the_module
           sample_go_str sample_adjust Alloc_init sample_function "C"
           {[ "x" ]} [] "x" "v" (proj2 (elem_of_singleton _ _) eq_refl)).
Defined.

Lemma classify_entries_ok n : Forall entry_ok (vars (classify_function n).2).
Proof.
  set (I := fun s : Visitor => Forall entry_ok (vars s)).
  assert (I BlockVisitor_new) as H0 by constructor.
  assert (keeps I (FunctionBlockVisitor_init n)) as Hk.
  { intros s r s' Hi Hs. by apply entries_ok_init in Hi. }
  destruct (classify_function n) as [r st] eqn:E. simpl.
  destruct n; try exact (Hk _ _ _ E H0).
  refine (keeps_vbind I _ _ Hk _ _ _ _ E H0).
  intros _. apply keeps_for_each_all. intros x.
  apply keeps_visit; [apply entries_ok_add|]. by intros _ s Hs.
Qed.

(** Whatever function node is classified and however the classification
    ends, every entry of the variables is stored under the name of its
    variable and has an argument index exactly when it is a parameter: the
    assertions of the constructor of a variable hold for all of them. *)
Theorem classified_entries_are_well_formed (n : node) :
  Forall entry_ok (vars (classify_function n).2).
Proof. apply classify_entries_ok. Qed.

(** Every variable that the classification of a function leaves has an
    initial value unless it is global: the argument of its index for a
    parameter, the unbound value for a local. *)
Theorem classified_variables_have_initial_values
    (n : node) (k : string) (v : Var) :
  (k, v) ∈ vars (classify_function n).2 ->
  match type v with
  | TYPE_LOCAL => init_expr v = Some "πg.UnboundLocal"
  | TYPE_PARAM =>
      exists i, arg_index v = Some i
        /\ init_expr v
           = Some ("πArgs[" +:+ NilEmpty.string_of_uint (Nat.to_uint i) +:+ "]")
  | TYPE_GLOBAL => init_expr v = None
  end.
Proof.
  intros Hin.
  pose proof (classify_entries_ok n) as Hok.
  rewrite Forall_forall in Hok. destruct (Hok _ Hin) as [_ Hidx].
  simpl in Hidx. unfold init_expr.
  destruct (type v) eqn:Ety; try done.
  destruct Hidx as [Hsome _]. destruct (Hsome eq_refl) as [i Hi].
  exists i. by rewrite Hi.
Qed.

Lemma classified_variables_have_initial_values_witness :
  ("a", mkVar "a" TYPE_PARAM (Some 0)) ∈ vars (classify_function sample_def).2
  /\ exists i, Some 0 = Some i
       /\ Some "πArgs[0]"
          = Some ("πArgs[" +:+ NilEmpty.string_of_uint (Nat.to_uint i) +:+ "]").
Proof.
  assert (("a", mkVar "a" TYPE_PARAM (Some 0))
            ∈ vars (classify_function sample_def).2) as H by left.
  split; [exact H|].
  exact (classified_variables_have_initial_values
           sample_def "a" (mkVar "a" TYPE_PARAM (Some 0)) H).
Defined.
